(** * Course catalog on a binary search tree (ProjectTwo.cpp)

    The catalog is a pointer-linked, unbalanced binary search tree of
    [Course] records keyed by [courseNumber].  The program is embedded
    as it is written: tree nodes live in a heap and are reached through
    pointers, [insertIntoBST] rewrites child links in place, the printing
    functions append to the console, and the recursive functions carry
    an explicit recursion budget.  An address-annotated tree is the
    abstraction that says which heap cells a pointer owns. *)

From Stdlib Require Import String Ascii List Sorted Permutation OrderedTypeEx Lia Arith.
From stdpp Require Import base option list sets sorting.

(** ** Strings

    [std::string]'s [operator<] is the lexicographic order on the
    characters read as unsigned bytes, a proper prefix being smaller:
    this is [String.ltb].  [operator==] is [String.eqb]. *)

Definition comma : ascii := ","%char.

(** ** Data model *)

Record Course := mkCourse {
  courseNumber : string;
  courseTitle : string;
  prerequisites : list string
}.

(** A pointer is an optional heap address; [None] is [nullptr]. *)
Abbreviation addr := nat (only parsing).
Abbreviation ptr := (option nat) (only parsing).
Abbreviation nullptr := (@None nat) (only parsing).

Record TreeNode := mkTreeNode {
  course : Course;
  left : ptr;
  right : ptr
}.

(** What the program writes on the console, one event for each message
    (prompts and the menu text are left out). *)
Inductive event :=
| EvOpening
| EvOpenError
| EvInvalidLine (line : string)
| EvCourse (c : Course)
| EvNotFound
| EvCourseInfo (c : Course)
| EvLoaded
| EvLoadFailed
| EvListHeader
| EvNoData
| EvExit
| EvInvalidChoice.

(** The machine state: the heap is an arena of nodes, a node's address
    is its index; [new] allocates at the end. *)
Record state := mkState {
  heap : list TreeNode;
  console : list event
}.

(** ** A state and error monad

    [Fault] is a dereference of a null or dangling pointer (or an
    out-of-range subscript), [OutOfFuel] an exhausted budget: the code
    has not returned within the recursion depth, or the input, that the
    model gives it. *)
Inductive result (A : Type) :=
| Ok (a : A) (s : state)
| Fault
| OutOfFuel.
Arguments Ok {A} a s.
Arguments Fault {A}.
Arguments OutOfFuel {A}.

Definition M (A : Type) := state -> result A.

Definition ret {A} (a : A) : M A := fun s => Ok a s.

Definition bind {A B} (m : M A) (k : A -> M B) : M B :=
  fun s => match m s with
           | Ok a s' => k a s'
           | Fault => Fault
           | OutOfFuel => OutOfFuel
           end.

Notation "x <- m ;; k" := (bind m (fun x => k))
  (at level 63, m at next level, right associativity).
Notation "m ;;; k" := (bind m (fun _ => k))
  (at level 63, right associativity).

Definition fault {A} : M A := fun _ => Fault.
Definition out_of_fuel {A} : M A := fun _ => OutOfFuel.

(** [*p] for a node pointer [p = &heap[a]]. *)
Definition deref (a : addr) : M TreeNode :=
  fun s => match heap s !! a with
           | Some n => Ok n s
           | None => Fault
           end.

Definition store (a : addr) (n : TreeNode) : M unit :=
  fun s => match heap s !! a with
           | Some _ => Ok tt (mkState (<[a := n]> (heap s)) (console s))
           | None => Fault
           end.

(** [p->left = q] and [p->right = q]. *)
Definition set_left (a : addr) (q : ptr) : M unit :=
  n <- deref a ;; store a (mkTreeNode (course n) q (right n)).

Definition set_right (a : addr) (q : ptr) : M unit :=
  n <- deref a ;; store a (mkTreeNode (course n) (left n) q).

(** [new TreeNode(c)]: the constructor sets both children to [nullptr]. *)
Definition new_TreeNode (c : Course) : M ptr :=
  fun s => Ok (Some (length (heap s)))
              (mkState (heap s ++ [mkTreeNode c nullptr nullptr]) (console s)).

(** [cout << ...]. *)
Definition print (e : event) : M unit :=
  fun s => Ok tt (mkState (heap s) (console s ++ [e])).

(** The recursion budget the callers pass: one more than the number of
    allocated nodes, which no path of a well-formed tree exceeds. *)
Definition depth_bound : M nat :=
  fun s => Ok (S (length (heap s))) s.

(** ** The catalog tree *)

Fixpoint insertIntoBST (fuel : nat) (root : ptr) (c : Course) : M ptr :=
  match fuel with
  | 0 => out_of_fuel
  | S fuel' =>
    match root with
    | None => new_TreeNode c
    | Some a =>
      n <- deref a ;;
      if String.ltb (courseNumber c) (courseNumber (course n)) then
        q <- insertIntoBST fuel' (left n) c ;;
        set_left a q ;;;
        ret root
      else
        q <- insertIntoBST fuel' (right n) c ;;
        set_right a q ;;;
        ret root
    end
  end.

(** The returned [Course*] points into the node found; it is modelled
    by that node's address. *)
Fixpoint searchBST (fuel : nat) (root : ptr) (number : string) : M ptr :=
  match fuel with
  | 0 => out_of_fuel
  | S fuel' =>
    match root with
    | None => ret nullptr
    | Some a =>
      n <- deref a ;;
      if String.eqb (courseNumber (course n)) number then ret (Some a)
      else if String.ltb number (courseNumber (course n)) then
        searchBST fuel' (left n) number
      else
        searchBST fuel' (right n) number
    end
  end.

Fixpoint displayCoursesInOrder (fuel : nat) (root : ptr) : M unit :=
  match fuel with
  | 0 => out_of_fuel
  | S fuel' =>
    match root with
    | None => ret tt
    | Some a =>
      n <- deref a ;;
      displayCoursesInOrder fuel' (left n) ;;;
      print (EvCourse (course n)) ;;;
      displayCoursesInOrder fuel' (right n)
    end
  end.

(** The calls [insertIntoBST(root, c)], [searchBST(root, number)] and
    [displayCoursesInOrder(root)] as the program issues them; [insert],
    [search] and [traverseInOrder] are the names the specification gives
    to these operations. *)
Definition insert (root : ptr) (c : Course) : M ptr :=
  d <- depth_bound ;; insertIntoBST d root c.

Definition search (root : ptr) (number : string) : M ptr :=
  d <- depth_bound ;; searchBST d root number.

Definition traverseInOrder (root : ptr) : M unit :=
  d <- depth_bound ;; displayCoursesInOrder d root.

Definition displayCourseInfo (root : ptr) (number : string) : M unit :=
  p <- search root number ;;
  match p with
  | None => print EvNotFound
  | Some a => n <- deref a ;; print (EvCourseInfo (course n))
  end.

(** ** The record parser *)

(** [getline(stream, token, delim)] on a stream with unread characters
    [stream]: the characters up to the first delimiter become the token,
    the delimiter is consumed and dropped. *)
Fixpoint getline_chars (stream : string) (delim : ascii) : string * string :=
  match stream with
  | EmptyString => (EmptyString, EmptyString)
  | String ch rest =>
    if Ascii.eqb ch delim then (EmptyString, rest)
    else let (token, rest') := getline_chars rest delim in
         (String ch token, rest')
  end.

(** [getline] fails (and ends a [while] loop) exactly when it can
    extract no character at all, that is at the end of the stream. *)
Definition getline (stream : string) (delim : ascii) : option (string * string) :=
  match stream with
  | EmptyString => None
  | _ => Some (getline_chars stream delim)
  end.

(** The [while (getline(...)) tokens.push_back(token)] loop.  Every
    round consumes a character, so [String.length str] rounds suffice. *)
Fixpoint splitString_loop (fuel : nat) (tokenStream : string) (delimiter : ascii)
    (tokens : list string) : list string :=
  match fuel with
  | 0 => tokens
  | S fuel' =>
    match getline tokenStream delimiter with
    | None => tokens
    | Some (token, rest) =>
      splitString_loop fuel' rest delimiter (tokens ++ [token])
    end
  end.

Definition splitString (str : string) (delimiter : ascii) : list string :=
  splitString_loop (String.length str) str delimiter [].

(** [for (size_t i = 2; i < tokens.size(); ++i) push_back(tokens[i])],
    run for at most [steps] rounds from index [i]. *)
Fixpoint push_prerequisites (steps : nat) (tokens : list string) (i : nat)
    (prereqs : list string) : list string :=
  match steps with
  | 0 => prereqs
  | S steps' =>
    if i <? length tokens then
      match tokens !! i with
      | Some t => push_prerequisites steps' tokens (S i) (prereqs ++ [t])
      | None => prereqs
      end
    else prereqs
  end.

(** The record built from the fields of an accepted line. *)
Definition make_course (tokens : list string) : option Course :=
  match tokens !! 0, tokens !! 1 with
  | Some number, Some title =>
    Some (mkCourse number title
            (push_prerequisites (length tokens) tokens 2 []))
  | _, _ => None
  end.

(** The body of the loader: [file] is the sequence of lines that the
    successive [getline(file, line)] calls deliver. *)
Fixpoint load_lines (file : list string) (root : ptr) : M ptr :=
  match file with
  | [] => ret root
  | line :: file' =>
    let tokens := splitString line comma in
    if length tokens <? 2 then
      print (EvInvalidLine line) ;;;
      load_lines file' root
    else
      match make_course tokens with
      | Some c =>
        root' <- insert root c ;;
        load_lines file' root'
      | None => fault
      end
  end.

(** [file] is [None] when the file cannot be opened. *)
Definition loadCoursesFromFile (file : option (list string)) : M ptr :=
  print EvOpening ;;;
  match file with
  | None => print EvOpenError ;;; ret nullptr
  | Some lines => load_lines lines nullptr
  end.

(** ** The menu loop *)

Record session := mkSession {
  root : ptr;
  dataLoaded : bool
}.

(** One user choice, with what it reads: choice 1 with the file behind
    the name typed in, choice 3 with the course number typed in. *)
Inductive choice :=
| Choice1 (file : option (list string))
| Choice2
| Choice3 (number : string)
| Choice9
| ChoiceOther.

(** [mainMenu] on the choices typed in, from the session [ss].  The
    [while (true)] loop returns at choice 9 only, with the session it
    has then; when the choices are used up before a 9 it goes round for
    ever on the failed input stream and returns nothing. *)
Fixpoint mainMenu (input : list choice) (ss : session) : M session :=
  match input with
  | [] => out_of_fuel
  | Choice1 file :: input' =>
    r <- loadCoursesFromFile file ;;
    match r with
    | Some _ =>
      print EvLoaded ;;;
      mainMenu input' (mkSession r true)
    | None =>
      print EvLoadFailed ;;;
      mainMenu input' (mkSession r (dataLoaded ss))
    end
  | Choice2 :: input' =>
    (if dataLoaded ss then
       print EvListHeader ;;;
       traverseInOrder (root ss)
     else print EvNoData) ;;;
    mainMenu input' ss
  | Choice3 number :: input' =>
    (if dataLoaded ss then displayCourseInfo (root ss) number
     else print EvNoData) ;;;
    mainMenu input' ss
  | Choice9 :: _ =>
    print EvExit ;;;
    ret ss
  | ChoiceOther :: input' =>
    print EvInvalidChoice ;;;
    mainMenu input' ss
  end.

Definition initial_state : state := mkState [] [].
Definition initial_session : session := mkSession nullptr false.

(** A sequence of insertions, as the loader performs it for records
    already parsed. *)
Fixpoint insert_all (cs : list Course) (root : ptr) : M ptr :=
  match cs with
  | [] => ret root
  | c :: cs' =>
    root' <- insert root c ;;
    insert_all cs' root'
  end.

(** The parser of one line, as the loader's loop body contains it:
    a line with fewer than two fields is rejected. *)
Definition parse_line (line : string) : option Course :=
  let tokens := splitString line comma in
  if length tokens <? 2 then None else make_course tokens.

(** ** The tree a pointer owns

    The abstraction of a heap-allocated tree records, for every node,
    the address it lives at. *)
Inductive tree :=
| Leaf
| Node (l : tree) (a : addr) (c : Course) (r : tree).

Definition root_ptr (t : tree) : ptr :=
  match t with
  | Leaf => nullptr
  | Node _ a _ _ => Some a
  end.

Fixpoint addrs (t : tree) : list addr :=
  match t with
  | Leaf => []
  | Node l a _ r => addrs l ++ a :: addrs r
  end.

(** Left subtree, node, right subtree. *)
Fixpoint inorder (t : tree) : list Course :=
  match t with
  | Leaf => []
  | Node l _ c r => inorder l ++ c :: inorder r
  end.

Fixpoint height (t : tree) : nat :=
  match t with
  | Leaf => 0
  | Node l _ _ r => S (Nat.max (height l) (height r))
  end.

(** Every node of [t] is laid out in the heap [h] at its address, with
    child links to the roots of its subtrees. *)
Fixpoint shape (h : list TreeNode) (t : tree) : Prop :=
  match t with
  | Leaf => True
  | Node l a c r =>
    h !! a = Some (mkTreeNode c (root_ptr l) (root_ptr r)) /\
    shape h l /\ shape h r
  end.

(** [p] points to the tree [t] in [h], no node being shared: each node
    has one owner. *)
Definition owns (h : list TreeNode) (p : ptr) (t : tree) : Prop :=
  p = root_ptr t /\ shape h t /\ NoDup (addrs t).

(** What [insertIntoBST] does to the owned tree when the new node is
    allocated at [a]. *)
Fixpoint tinsert (t : tree) (a : addr) (c : Course) : tree :=
  match t with
  | Leaf => Node Leaf a c Leaf
  | Node l b d r =>
    if String.ltb (courseNumber c) (courseNumber d)
    then Node (tinsert l a c) b d r
    else Node l b d (tinsert r a c)
  end.

Fixpoint tinsert_all (t : tree) (a : addr) (cs : list Course) : tree :=
  match cs with
  | [] => t
  | c :: cs' => tinsert_all (tinsert t a c) (S a) cs'
  end.

(** What [searchBST] returns on the owned tree. *)
Fixpoint tsearch (t : tree) (number : string) : ptr :=
  match t with
  | Leaf => nullptr
  | Node l a c r =>
    if String.eqb (courseNumber c) number then Some a
    else if String.ltb number (courseNumber c) then tsearch l number
    else tsearch r number
  end.

(** [s] is a subtree of [t]: [s] is a node of [t] with all below it. *)
Inductive subtree (s : tree) : tree -> Prop :=
| subtree_here : subtree s s
| subtree_left l a c r : subtree s l -> subtree s (Node l a c r)
| subtree_right l a c r : subtree s r -> subtree s (Node l a c r).

(** The order of identifiers. *)
Definition str_lt (x y : string) : Prop := String.ltb x y = true.
Definition str_le (x y : string) : Prop := String.leb x y = true.

(** The ordering invariant: at every node, the identifiers of the left
    subtree are strictly smaller and those of the right subtree greater
    than or equal. *)
Fixpoint bst (t : tree) : Prop :=
  match t with
  | Leaf => True
  | Node l _ c r =>
    (forall x, x ∈ inorder l -> str_lt (courseNumber x) (courseNumber c)) /\
    (forall x, x ∈ inorder r -> str_le (courseNumber c) (courseNumber x)) /\
    bst l /\ bst r
  end.

(** An existing node is kept: its record is the same, and so is each
    child link that was set. *)
Definition node_kept (n n' : TreeNode) : Prop :=
  course n' = course n /\
  (left n <> nullptr -> left n' = left n) /\
  (right n <> nullptr -> right n' = right n).

Definition heap_kept (h h' : list TreeNode) : Prop :=
  forall a n, h !! a = Some n -> exists n', h' !! a = Some n' /\ node_kept n n'.

(** The courses the console lists. *)
Definition listing (cs : list Course) : list event := map EvCourse cs.

(** The lines the loader accepts, as records, and the messages for the
    lines it rejects. *)
Definition accepted (file : list string) : list Course :=
  omap parse_line file.

Definition rejected (file : list string) : list event :=
  map EvInvalidLine (filter (fun line => parse_line line = None) file).

(** ** The split as the specification words it

    Every field is kept, the empty ones too: a line with [n] delimiters
    has [n + 1] fields. *)
Fixpoint split_fields (s : string) (delim : ascii) : list string :=
  match s with
  | EmptyString => [EmptyString]
  | String ch s' =>
    if Ascii.eqb ch delim then EmptyString :: split_fields s' delim
    else match split_fields s' delim with
         | f :: fs => String ch f :: fs
         | [] => [String ch EmptyString]
         end
  end.

Fixpoint count_delim (s : string) (delim : ascii) : nat :=
  match s with
  | EmptyString => 0
  | String ch s' =>
    (if Ascii.eqb ch delim then 1 else 0) + count_delim s' delim
  end.

(** A last field that is empty is not there. *)
Fixpoint drop_trailing_empty (fields : list string) : list string :=
  match fields with
  | [] => []
  | [f] => if String.eqb f EmptyString then [] else [f]
  | f :: fs => f :: drop_trailing_empty fs
  end.

(** The position of the first record with identifier [k]. *)
Fixpoint first_index (k : string) (cs : list Course) : option nat :=
  match cs with
  | [] => None
  | c :: cs' =>
    if String.eqb (courseNumber c) k then Some 0
    else S <$> first_index k cs'
  end.

(** ** Notions for the further properties *)

(** The records with number [k], as a test for [List.filter] and
    [List.find]. *)
Definition number_is (k : string) (c : Course) : bool :=
  String.eqb (courseNumber c) k.

(** A field free of the delimiter. *)
Definition no_comma (f : string) : Prop := count_delim f comma = 0.

(** The text of a record line: its fields joined by commas. *)
Definition join_fields (fields : list string) : string :=
  String.concat (String comma EmptyString) fields.

(** A tree degenerated into a list: the records at consecutive
    addresses from [a], each the right child of the one before. *)
Fixpoint spine_of (a : addr) (cs : list Course) : tree :=
  match cs with
  | [] => Leaf
  | c :: cs' => Node Leaf a c (spine_of (S a) cs')
  end.


(** The message of [displayCourseInfo] for a search result. *)
Definition info_event (found : option Course) : event :=
  match found with
  | Some c => EvCourseInfo c
  | None => EvNotFound
  end.

(** The records a file holds for the loader: none when it cannot be
    opened, else those of its accepted lines. *)
Definition file_records (file : option (list string)) : list Course :=
  match file with
  | None => []
  | Some lines => accepted lines
  end.

(** What the loader prints for a file. *)
Definition load_messages (file : option (list string)) : list event :=
  match file with
  | None => [EvOpening; EvOpenError]
  | Some lines => EvOpening :: rejected lines
  end.

(** The loop of [mainMenu] over the file name typed in, which turns
    every backslash into a forward slash, character by character. *)
Definition backslash : ascii := "\"%char.
Definition slash : ascii := "/"%char.

Fixpoint normalize_filename (filename : string) : string :=
  match filename with
  | EmptyString => EmptyString
  | String ch rest =>
    String (if Ascii.eqb ch backslash then slash else ch)
           (normalize_filename rest)
  end.

(** ** Sample data *)

Definition course_B1 : Course := mkCourse "B" "B1" [].
Definition course_A : Course := mkCourse "A" "A" [].
Definition course_B2 : Course := mkCourse "B" "B2" [].

Definition course_CS101 : Course := mkCourse "CS101" "Intro" [].
Definition course_CS200 : Course :=
  mkCourse "CS200" "Advanced" ["CS101"%string].

Definition sample_file : list string :=
  ["CS101,Intro"; "garbage"; "CS200,Advanced,CS101"]%string.

(** The heap after loading [sample_file]. *)
Definition loaded_heap : list TreeNode :=
  [mkTreeNode course_CS101 nullptr (Some 1);
   mkTreeNode course_CS200 nullptr nullptr].

Definition prereq_line : string := "CS200,Advanced,CS101,CS102".
Definition course_CS200_full : Course :=
  mkCourse "CS200" "Advanced" ["CS101"; "CS102"]%string.

(** The state and the tree after inserting B1, A, B2. *)
Definition sample_heap : list TreeNode :=
  [mkTreeNode course_B1 (Some 1) (Some 2);
   mkTreeNode course_A nullptr nullptr;
   mkTreeNode course_B2 nullptr nullptr].

Definition sample_tree : tree :=
  Node (Node Leaf 1 course_A Leaf) 0 course_B1 (Node Leaf 2 course_B2 Leaf).

(** * Properties *)

(** Splits the conjuncts of a specification, leaving each one whole. *)
Ltac split_conj :=
  lazymatch goal with
  | |- _ /\ _ => split; [ | split_conj]
  | _ => idtac
  end.

(** ** The order of identifiers *)

Section StringOrder.

Lemma ltb_compare x y : String.ltb x y = true <-> String.compare x y = Lt.
Proof. unfold String.ltb. destruct (String.compare x y); split; congruence. Qed.

Lemma ltb_false_leb x y : String.ltb x y = false <-> str_le y x.
Proof.
  unfold str_le, String.ltb, String.leb.
  rewrite (String.compare_antisym x y).
  destruct (String.compare y x); simpl; split; congruence.
Qed.

Lemma str_lt_irrefl x : String.ltb x x = false.
Proof.
  unfold String.ltb.
  assert (String.compare x x = Eq) as -> by (by apply String_as_OT.cmp_eq).
  done.
Qed.

Lemma str_le_refl x : str_le x x.
Proof. apply ltb_false_leb, str_lt_irrefl. Qed.

Lemma str_lt_trans x y z : str_lt x y -> str_lt y z -> str_lt x z.
Proof.
  unfold str_lt. rewrite !ltb_compare.
  change String.compare with String_as_OT.cmp.
  rewrite !String_as_OT.cmp_lt. apply String_as_OT.lt_trans.
Qed.

Lemma str_le_cases x y : str_le x y <-> str_lt x y \/ x = y.
Proof.
  unfold str_le, str_lt, String.leb, String.ltb.
  pose proof (String_as_OT.cmp_eq x y) as Heq. unfold String_as_OT.cmp in Heq.
  destruct (String.compare x y); split; intros H; try done.
  - right. by apply Heq.
  - by left.
  - destruct H as [H | H]; [done | ]. by apply Heq in H.
Qed.

Lemma str_lt_le x y : str_lt x y -> str_le x y.
Proof. intros. apply str_le_cases. by left. Qed.

Lemma str_lt_le_trans x y z : str_lt x y -> str_le y z -> str_lt x z.
Proof.
  intros Hxy [Hyz | ->]%str_le_cases; [ | done].
  by eapply str_lt_trans.
Qed.

Lemma str_le_trans x y z : str_le x y -> str_le y z -> str_le x z.
Proof.
  intros [Hxy | ->]%str_le_cases Hyz; [ | done].
  by eapply str_lt_le, str_lt_le_trans.
Qed.

Lemma eqb_true_ltb_false x y : String.eqb x y = true -> String.ltb y x = false.
Proof. intros ->%String.eqb_eq. apply str_lt_irrefl. Qed.

End StringOrder.

(** ** The owned tree, without the heap *)

Lemma root_ptr_tinsert t a c :
  root_ptr t <> nullptr -> root_ptr (tinsert t a c) = root_ptr t.
Proof.
  destruct t as [ | l b d r]; simpl; [done | intros _].
  by destruct (String.ltb _ _).
Qed.

Lemma inorder_tinsert t a c :
  exists l1 l2, inorder t = l1 ++ l2 /\ inorder (tinsert t a c) = l1 ++ c :: l2.
Proof.
  induction t as [ | l IHl b d r IHr]; simpl.
  - by exists [], [].
  - destruct (String.ltb _ _); simpl.
    + destruct IHl as (l1 & l2 & -> & ->).
      exists l1, (l2 ++ d :: inorder r). by rewrite <- !app_assoc.
    + destruct IHr as (l1 & l2 & -> & ->).
      exists (inorder l ++ d :: l1), l2. by rewrite <- !app_assoc.
Qed.

Lemma addrs_tinsert t a c :
  exists l1 l2, addrs t = l1 ++ l2 /\ addrs (tinsert t a c) = l1 ++ a :: l2.
Proof.
  induction t as [ | l IHl b d r IHr]; simpl.
  - by exists [], [].
  - destruct (String.ltb _ _); simpl.
    + destruct IHl as (l1 & l2 & -> & ->).
      exists l1, (l2 ++ b :: addrs r). by rewrite <- !app_assoc.
    + destruct IHr as (l1 & l2 & -> & ->).
      exists (addrs l ++ b :: l1), l2. by rewrite <- !app_assoc.
Qed.

Lemma inorder_tinsert_perm t a c : inorder (tinsert t a c) ≡ₚ c :: inorder t.
Proof.
  destruct (inorder_tinsert t a c) as (l1 & l2 & -> & ->).
  by rewrite Permutation_middle.
Qed.

Lemma addrs_tinsert_perm t a c : addrs (tinsert t a c) ≡ₚ a :: addrs t.
Proof.
  destruct (addrs_tinsert t a c) as (l1 & l2 & -> & ->).
  by rewrite Permutation_middle.
Qed.

Lemma elem_of_inorder_tinsert t a c x :
  x ∈ inorder (tinsert t a c) <-> x = c \/ x ∈ inorder t.
Proof. rewrite inorder_tinsert_perm. apply elem_of_cons. Qed.

Lemma elem_of_addrs_tinsert t a c x :
  x ∈ addrs (tinsert t a c) <-> x = a \/ x ∈ addrs t.
Proof. rewrite addrs_tinsert_perm. apply elem_of_cons. Qed.

Lemma inorder_addrs_length t : length (inorder t) = length (addrs t).
Proof.
  induction t as [ | l IHl b d r IHr]; simpl; [done | ].
  rewrite !length_app. simpl. lia.
Qed.

Lemma height_le_addrs t : height t <= length (addrs t).
Proof.
  induction t as [ | l IHl b d r IHr]; simpl; [done | ].
  rewrite length_app. simpl. lia.
Qed.

(** Insertion keeps the ordering invariant. *)
Lemma bst_tinsert t a c : bst t -> bst (tinsert t a c).
Proof.
  induction t as [ | l IHl b d r IHr]; simpl.
  - intros _. repeat split; intros x Hx; by apply elem_of_nil in Hx.
  - intros (Hl & Hr & Hbl & Hbr).
    destruct (String.ltb (courseNumber c) (courseNumber d)) eqn:Hlt; simpl.
    + repeat split; auto.
      intros x [-> | Hx]%elem_of_inorder_tinsert; [done | by apply Hl].
    + repeat split; auto.
      intros x [-> | Hx]%elem_of_inorder_tinsert; [ | by apply Hr].
      by apply ltb_false_leb.
Qed.

Lemma bst_tinsert_all cs t a : bst t -> bst (tinsert_all t a cs).
Proof.
  revert t a. induction cs as [ | c cs IH]; simpl; intros t a Ht; [done | ].
  by apply IH, bst_tinsert.
Qed.

(** A tree with the ordering invariant lists its identifiers in
    non-decreasing order. *)
Lemma bst_sorted t :
  bst t ->
  StronglySorted (fun x y => str_le (courseNumber x) (courseNumber y)) (inorder t).
Proof.
  induction t as [ | l IHl b d r IHr]; simpl.
  - constructor.
  - intros (Hl & Hr & Hbl & Hbr).
    apply StronglySorted_app. split_and!; [ | by apply IHl | ].
    + intros x y Hx [-> | Hy]%elem_of_cons.
      * by apply str_lt_le, Hl.
      * apply str_lt_le. eapply str_lt_le_trans; [by apply Hl | by apply Hr].
    + constructor; [by apply IHr | ].
      apply Forall_forall. intros x Hx. by apply Hr.
Qed.

(** A search after an insertion finds what it found before; the new
    record is found only where nothing was found. *)
Lemma tsearch_tinsert t a c k :
  tsearch (tinsert t a c) k =
  match tsearch t k with
  | Some b => Some b
  | None => if String.eqb (courseNumber c) k then Some a else nullptr
  end.
Proof.
  induction t as [ | l IHl b d r IHr]; simpl.
  - destruct (String.eqb (courseNumber c) k) eqn:Heq; [done | ].
    by destruct (String.ltb k (courseNumber c)).
  - destruct (String.ltb (courseNumber c) (courseNumber d)) eqn:Hcd; simpl;
      destruct (String.eqb (courseNumber d) k) eqn:Hdk; try done;
      destruct (String.ltb k (courseNumber d)) eqn:Hkd; try done.
    + destruct (tsearch r k); [done | ].
      destruct (String.eqb (courseNumber c) k) eqn:Hck; [ | done].
      apply String.eqb_eq in Hck. congruence.
    + destruct (tsearch l k); [done | ].
      destruct (String.eqb (courseNumber c) k) eqn:Hck; [ | done].
      apply String.eqb_eq in Hck. congruence.
Qed.

Lemma tsearch_elem_of t k a :
  tsearch t k = Some a -> a ∈ addrs t.
Proof.
  induction t as [ | l IHl b d r IHr]; simpl; [done | ].
  destruct (String.eqb (courseNumber d) k).
  - intros [= ->]. set_solver.
  - destruct (String.ltb k (courseNumber d)); intros H; set_solver.
Qed.

Lemma tsearch_absent t k :
  (forall c, c ∈ inorder t -> courseNumber c <> k) -> tsearch t k = nullptr.
Proof.
  induction t as [ | l IHl b d r IHr]; simpl; [done | ].
  intros H.
  destruct (String.eqb (courseNumber d) k) eqn:Hdk.
  - apply String.eqb_eq in Hdk. exfalso. apply (H d); [set_solver | done].
  - destruct (String.ltb k (courseNumber d)); [apply IHl | apply IHr];
      intros c Hc; apply H; set_solver.
Qed.

(** In a tree with the ordering invariant, a record equal in identifier
    to a node goes into the right subtree of that node. *)
Lemma tinsert_right_of_equal t l b d r a c :
  bst t -> subtree (Node l b d r) t -> courseNumber c = courseNumber d ->
  subtree (Node l b d (tinsert r a c)) (tinsert t a c).
Proof.
  intros Ht Hsub Heq. induction t as [ | L IHL e f R IHR].
  - inversion Hsub.
  - destruct Ht as (HL & HR & HbL & HbR).
    assert (Hin : forall s, subtree (Node l b d r) s -> d ∈ inorder s).
    { clear. intros s Hs. induction Hs; simpl; set_solver. }
    inversion Hsub as [ | ? ? ? ? Hs | ? ? ? ? Hs]; subst; simpl.
    + rewrite Heq, str_lt_irrefl. constructor.
    + rewrite Heq. pose proof (HL d (Hin _ Hs)) as Hlt.
      unfold str_lt in Hlt. rewrite Hlt. apply subtree_left. by apply IHL.
    + rewrite Heq. pose proof (HR d (Hin _ Hs)) as Hle.
      apply ltb_false_leb in Hle. rewrite Hle. apply subtree_right. by apply IHR.
Qed.

(** ** Running the monad *)

Lemma bind_Ok {A B} (m : M A) (k : A -> M B) s a s' :
  m s = Ok a s' -> bind m k s = k a s'.
Proof. unfold bind. by intros ->. Qed.

Lemma deref_Ok a n s : heap s !! a = Some n -> deref a s = Ok n s.
Proof. unfold deref. by intros ->. Qed.

Lemma set_left_Ok a q n s :
  heap s !! a = Some n ->
  set_left a q s =
  Ok tt (mkState (<[a := mkTreeNode (course n) q (right n)]> (heap s)) (console s)).
Proof. intros H. unfold set_left, bind, deref, store. rewrite H. by rewrite H. Qed.

Lemma set_right_Ok a q n s :
  heap s !! a = Some n ->
  set_right a q s =
  Ok tt (mkState (<[a := mkTreeNode (course n) (left n) q]> (heap s)) (console s)).
Proof. intros H. unfold set_right, bind, deref, store. rewrite H. by rewrite H. Qed.

(** ** The heap and the tree it holds *)

Lemma node_kept_refl n : node_kept n n.
Proof. by repeat split. Qed.

Lemma heap_kept_refl h : heap_kept h h.
Proof. intros a n Hn. exists n. split; [done | apply node_kept_refl]. Qed.

Lemma heap_kept_trans h1 h2 h3 :
  heap_kept h1 h2 -> heap_kept h2 h3 -> heap_kept h1 h3.
Proof.
  intros H12 H23 a n Hn.
  destruct (H12 a n Hn) as (n2 & Hn2 & Hc2 & Hl2 & Hr2).
  destruct (H23 a n2 Hn2) as (n3 & Hn3 & Hc3 & Hl3 & Hr3).
  exists n3. split; [done | ]. repeat split.
  - congruence.
  - intros Hl. rewrite <- (Hl2 Hl). apply Hl3. by rewrite (Hl2 Hl).
  - intros Hr. rewrite <- (Hr2 Hr). apply Hr3. by rewrite (Hr2 Hr).
Qed.

Lemma heap_kept_length h h' : heap_kept h h' -> length h <= length h'.
Proof.
  intros Hk. destruct (decide (length h = 0)) as [-> | Hne]; [lia | ].
  destruct (lookup_lt_is_Some_2 h (length h - 1)) as [n Hn]; [lia | ].
  destruct (Hk _ _ Hn) as (n' & Hn' & _).
  apply lookup_lt_Some in Hn'. lia.
Qed.

Lemma shape_addr_lt h t a : shape h t -> a ∈ addrs t -> a < length h.
Proof.
  induction t as [ | l IHl b d r IHr]; simpl.
  - intros _ Ha. by apply elem_of_nil in Ha.
  - intros (Hb & Hl & Hr) [Ha | [-> | Ha]%elem_of_cons]%elem_of_app; auto.
    by eapply lookup_lt_Some.
Qed.

(** The layout of a tree depends on the heap at its own addresses only. *)
Lemma shape_ext h h' t :
  (forall a, a ∈ addrs t -> h' !! a = h !! a) -> shape h t -> shape h' t.
Proof.
  induction t as [ | l IHl b d r IHr]; simpl; [done | ].
  intros Hext (Hb & Hl & Hr). split_and!.
  - rewrite Hext; [done | set_solver].
  - apply IHl; [ | done]. intros a Ha. apply Hext. set_solver.
  - apply IHr; [ | done]. intros a Ha. apply Hext. set_solver.
Qed.

Lemma addrs_le_heap h t :
  shape h t -> NoDup (addrs t) -> length (addrs t) <= length h.
Proof.
  intros Hsh Hnd.
  assert (length (seq 0 (length h)) = length h) as <- by apply length_seq.
  apply submseteq_length, NoDup_submseteq; [done | ].
  intros a Ha. apply elem_of_seq. split; [lia | ].
  simpl. by eapply shape_addr_lt.
Qed.

(** No path of an owned tree is longer than the heap. *)
Lemma owns_height h p t : owns h p t -> height t < S (length h).
Proof.
  intros (_ & Hsh & Hnd).
  pose proof (height_le_addrs t). pose proof (addrs_le_heap h t Hsh Hnd). lia.
Qed.

Lemma owns_nullptr h : owns h nullptr Leaf.
Proof. repeat split. constructor. Qed.

(** ** Insertion *)

Lemma insertIntoBST_spec t : forall fuel h o c,
  shape h t -> NoDup (addrs t) -> height t < fuel ->
  exists h',
    insertIntoBST fuel (root_ptr t) c (mkState h o)
      = Ok (root_ptr (tinsert t (length h) c)) (mkState h' o) /\
    length h' = S (length h) /\
    shape h' (tinsert t (length h) c) /\
    h' !! length h = Some (mkTreeNode c nullptr nullptr) /\
    (forall a, a < length h -> a ∉ addrs t -> h' !! a = h !! a) /\
    heap_kept h h'.
Proof.
  induction t as [ | l IHl b d r IHr]; intros fuel h o c Hsh Hnd Hfuel;
    (destruct fuel as [ | fuel]; [simpl in Hfuel; lia | ]).
  - exists (h ++ [mkTreeNode c nullptr nullptr]). simpl. split_conj.
    + done.
    + rewrite length_app. simpl. lia.
    + by rewrite list_lookup_middle.
    + by rewrite list_lookup_middle.
    + intros a Ha _. by rewrite lookup_app_l.
    + intros a n Hn. exists n. split; [ | apply node_kept_refl].
      rewrite lookup_app_l; [done | by eapply lookup_lt_Some].
  - simpl in Hsh, Hnd, Hfuel. destruct Hsh as (Hb & Hsl & Hsr).
    apply NoDup_app in Hnd as (Hndl & Hdisj & Hnd).
    apply NoDup_cons in Hnd as (Hbr & Hndr).
    assert (Hbl : b ∉ addrs l) by (intros Hin; apply (Hdisj _ Hin); set_solver).
    assert (Hblt : b < length h) by (by eapply lookup_lt_Some).
    cbn [insertIntoBST root_ptr tinsert].
    erewrite bind_Ok by (by apply deref_Ok). cbn [course left right].
    destruct (String.ltb (courseNumber c) (courseNumber d)) eqn:Hlt.
    + destruct (IHl fuel h o c) as (h1 & Hrun & Hlen & Hsh1 & Hnew & Hframe & Hkept);
        [done | done | lia | ].
      assert (Hb1 : h1 !! b = Some (mkTreeNode d (root_ptr l) (root_ptr r)))
        by (by rewrite Hframe).
      erewrite bind_Ok by exact Hrun.
      erewrite bind_Ok by (by apply set_left_Ok).
      cbn [course left right heap console ret root_ptr].
      eexists. split; [reflexivity | ].
      assert (Hother : forall a, a <> b ->
        <[b := mkTreeNode d (root_ptr (tinsert l (length h) c)) (root_ptr r)]> h1 !! a
        = h1 !! a) by (intros a Ha; by apply list_lookup_insert_ne).
      split_conj.
      * by rewrite length_insert.
      * cbn [shape]. split_and!.
        -- apply list_lookup_insert_eq. lia.
        -- apply (shape_ext h1); [ | done].
           intros a [-> | Ha]%elem_of_addrs_tinsert; apply Hother; [lia | ].
           by intros ->.
        -- apply (shape_ext h); [ | done].
           intros a Ha. rewrite Hother; [ | by intros ->].
           apply Hframe; [by apply (shape_addr_lt h r) | ].
           intros Hin. apply (Hdisj _ Hin). set_solver.
      * rewrite Hother by lia. done.
      * intros a Ha Hnin. cbn [addrs] in Hnin.
        rewrite Hother by set_solver. apply Hframe; [done | set_solver].
      * intros a n Hn. destruct (decide (a = b)) as [Heq | Hab]; [subst a | ].
        -- rewrite Hb in Hn. injection Hn as <-.
           eexists. split; [apply list_lookup_insert_eq; lia | ].
           repeat split. cbn [left]. intros Hne. by apply root_ptr_tinsert.
        -- rewrite Hother by done. by apply Hkept.
    + destruct (IHr fuel h o c) as (h1 & Hrun & Hlen & Hsh1 & Hnew & Hframe & Hkept);
        [done | done | lia | ].
      assert (Hb1 : h1 !! b = Some (mkTreeNode d (root_ptr l) (root_ptr r)))
        by (by rewrite Hframe).
      erewrite bind_Ok by exact Hrun.
      erewrite bind_Ok by (by apply set_right_Ok).
      cbn [course left right heap console ret root_ptr].
      eexists. split; [reflexivity | ].
      assert (Hother : forall a, a <> b ->
        <[b := mkTreeNode d (root_ptr l) (root_ptr (tinsert r (length h) c))]> h1 !! a
        = h1 !! a) by (intros a Ha; by apply list_lookup_insert_ne).
      split_conj.
      * by rewrite length_insert.
      * cbn [shape]. split_and!.
        -- apply list_lookup_insert_eq. lia.
        -- apply (shape_ext h); [ | done].
           intros a Ha. rewrite Hother; [ | by intros ->].
           apply Hframe; [by apply (shape_addr_lt h l) | ].
           intros Hin. apply (Hdisj _ Ha). set_solver.
        -- apply (shape_ext h1); [ | done].
           intros a [-> | Ha]%elem_of_addrs_tinsert; apply Hother; [lia | ].
           by intros ->.
      * rewrite Hother by lia. done.
      * intros a Ha Hnin. cbn [addrs] in Hnin.
        rewrite Hother by set_solver. apply Hframe; [done | set_solver].
      * intros a n Hn. destruct (decide (a = b)) as [Heq | Hab]; [subst a | ].
        -- rewrite Hb in Hn. injection Hn as <-.
           eexists. split; [apply list_lookup_insert_eq; lia | ].
           repeat split. cbn [right]. intros Hne. by apply root_ptr_tinsert.
        -- rewrite Hother by done. by apply Hkept.
Qed.

Lemma owns_tinsert h h' t c :
  shape h t -> NoDup (addrs t) -> shape h' (tinsert t (length h) c) ->
  owns h' (root_ptr (tinsert t (length h) c)) (tinsert t (length h) c).
Proof.
  intros Hsh Hnd Hsh'. repeat split; [done | ].
  rewrite addrs_tinsert_perm. apply NoDup_cons. split; [ | done].
  intros Hin. apply (shape_addr_lt h) in Hin; [lia | done].
Qed.

(** A call [insertIntoBST(root, c)] on an owned tree. *)
Lemma insert_owns s p t c :
  owns (heap s) p t ->
  exists h',
    insert p c s = Ok (root_ptr (tinsert t (length (heap s)) c))
                      (mkState h' (console s)) /\
    owns h' (root_ptr (tinsert t (length (heap s)) c))
         (tinsert t (length (heap s)) c) /\
    length h' = S (length (heap s)) /\
    h' !! length (heap s) = Some (mkTreeNode c nullptr nullptr) /\
    heap_kept (heap s) h' /\
    (forall a, a < length (heap s) -> a ∉ addrs t -> h' !! a = heap s !! a).
Proof.
  intros Hown. pose proof (owns_height _ _ _ Hown) as Hh.
  destruct Hown as (-> & Hsh & Hnd). destruct s as [h o]. simpl in *.
  destruct (insertIntoBST_spec t (S (length h)) h o c Hsh Hnd Hh)
    as (h' & Hrun & Hlen & Hsh' & Hnew & Hframe & Hkept).
  exists h'. split_conj; try done.
  by eapply owns_tinsert.
Qed.

(** ** Search *)

Lemma searchBST_spec t : forall fuel s k,
  shape (heap s) t -> height t < fuel ->
  searchBST fuel (root_ptr t) k s = Ok (tsearch t k) s.
Proof.
  induction t as [ | l IHl b d r IHr]; intros fuel s k Hsh Hfuel;
    (destruct fuel as [ | fuel]; [simpl in Hfuel; lia | ]); [done | ].
  simpl in Hsh, Hfuel. destruct Hsh as (Hb & Hsl & Hsr).
  cbn [searchBST root_ptr tsearch].
  erewrite bind_Ok by (by apply deref_Ok). cbn [course left right].
  destruct (String.eqb (courseNumber d) k); [done | ].
  destruct (String.ltb k (courseNumber d)); [apply IHl | apply IHr];
    (done || lia).
Qed.

Lemma search_owns s p t k :
  owns (heap s) p t -> search p k s = Ok (tsearch t k) s.
Proof.
  intros Hown. pose proof (owns_height _ _ _ Hown) as Hh.
  destruct Hown as (-> & Hsh & _).
  unfold search, bind, depth_bound. by apply searchBST_spec.
Qed.

Lemma tsearch_found h t k a :
  shape h t -> tsearch t k = Some a ->
  a ∈ addrs t /\
  exists n, h !! a = Some n /\ courseNumber (course n) = k.
Proof.
  intros Hsh Hs. split; [by eapply tsearch_elem_of | ].
  induction t as [ | l IHl b d r IHr]; simpl in *; [done | ].
  destruct Hsh as (Hb & Hsl & Hsr).
  destruct (String.eqb (courseNumber d) k) eqn:Hdk.
  - injection Hs as <-. eexists. split; [done | ]. by apply String.eqb_eq.
  - destruct (String.ltb k (courseNumber d)); auto.
Qed.

(** ** Traversal *)

Lemma displayCoursesInOrder_spec t : forall fuel h o,
  shape h t -> height t < fuel ->
  displayCoursesInOrder fuel (root_ptr t) (mkState h o)
  = Ok tt (mkState h (o ++ listing (inorder t))).
Proof.
  induction t as [ | l IHl b d r IHr]; intros fuel h o Hsh Hfuel;
    (destruct fuel as [ | fuel]; [simpl in Hfuel; lia | ]).
  - simpl. unfold ret. by rewrite app_nil_r.
  - simpl in Hsh, Hfuel. destruct Hsh as (Hb & Hsl & Hsr).
    cbn [displayCoursesInOrder root_ptr inorder].
    erewrite bind_Ok by (by apply deref_Ok). cbn [course left right].
    erewrite bind_Ok by (apply IHl; [done | lia]).
    erewrite bind_Ok by reflexivity. cbn [heap console].
    rewrite IHr by (done || lia).
    unfold listing. rewrite map_app. simpl. by rewrite <- !app_assoc.
Qed.

Lemma traverseInOrder_owns s p t :
  owns (heap s) p t ->
  traverseInOrder p s
  = Ok tt (mkState (heap s) (console s ++ listing (inorder t))).
Proof.
  intros Hown. pose proof (owns_height _ _ _ Hown) as Hh.
  destruct Hown as (-> & Hsh & _). destruct s as [h o].
  unfold traverseInOrder, bind, depth_bound. cbn [heap console] in *.
  by apply displayCoursesInOrder_spec.
Qed.

(** ** Sequences of insertions *)

Lemma inorder_tinsert_all cs : forall t a,
  inorder (tinsert_all t a cs) ≡ₚ inorder t ++ cs.
Proof.
  induction cs as [ | c cs IH]; intros t a; simpl.
  - by rewrite app_nil_r.
  - rewrite IH, inorder_tinsert_perm. simpl. apply Permutation_middle.
Qed.

Lemma first_index_Some k cs i :
  first_index k cs = Some i ->
  exists c, cs !! i = Some c /\ courseNumber c = k /\
    forall j c', j < i -> cs !! j = Some c' -> courseNumber c' <> k.
Proof.
  revert i. induction cs as [ | c cs IH]; intros i; simpl; [done | ].
  destruct (String.eqb (courseNumber c) k) eqn:Hck.
  - intros [= <-]. exists c. split_conj; [done | by apply String.eqb_eq | ].
    intros j c' Hj. lia.
  - destruct (first_index k cs) as [i' | ]; simpl; [ | done].
    intros [= <-]. destruct (IH i' eq_refl) as (c0 & Hc0 & Hk & Hfirst).
    exists c0. split_conj; [done | done | ].
    intros [ | j] c' Hj Hc'; simpl in Hc'.
    + injection Hc' as <-. by apply String.eqb_neq.
    + apply (Hfirst j); [lia | done].
Qed.

Lemma first_index_is_Some k cs c :
  c ∈ cs -> courseNumber c = k -> is_Some (first_index k cs).
Proof.
  intros Hin Hk. induction cs as [ | c' cs IH]; simpl.
  - by apply elem_of_nil in Hin.
  - destruct (String.eqb (courseNumber c') k) eqn:Hck; [done | ].
    apply elem_of_cons in Hin as [-> | Hin].
    + apply String.eqb_neq in Hck. done.
    + destruct (IH Hin) as [i ->]. done.
Qed.

Lemma tsearch_tinsert_all cs : forall t a k,
  tsearch (tinsert_all t a cs) k =
  match tsearch t k with
  | Some b => Some b
  | None => (fun i => a + i) <$> first_index k cs
  end.
Proof.
  induction cs as [ | c cs IH]; intros t a k; simpl.
  - by destruct (tsearch t k).
  - rewrite IH, tsearch_tinsert. destruct (tsearch t k); [done | ].
    destruct (String.eqb (courseNumber c) k); simpl.
    + f_equal. lia.
    + destruct (first_index k cs); simpl; [ | done]. f_equal. lia.
Qed.

Lemma insert_all_spec cs : forall s p t,
  owns (heap s) p t ->
  exists h',
    insert_all cs p s
      = Ok (root_ptr (tinsert_all t (length (heap s)) cs))
           (mkState h' (console s)) /\
    owns h' (root_ptr (tinsert_all t (length (heap s)) cs))
         (tinsert_all t (length (heap s)) cs) /\
    length h' = length (heap s) + length cs /\
    heap_kept (heap s) h' /\
    (forall i c, cs !! i = Some c ->
       exists n, h' !! (length (heap s) + i) = Some n /\ course n = c).
Proof.
  induction cs as [ | c cs IH]; intros s p t Hown.
  - exists (heap s). destruct s as [h o]. simpl. split_conj.
    + destruct Hown as (-> & _). done.
    + destruct Hown as (_ & Hsh & Hnd). by repeat split.
    + lia.
    + apply heap_kept_refl.
    + intros i c Hi. done.
  - destruct (insert_owns s p t c Hown)
      as (h1 & Hrun & Hown1 & Hlen1 & Hnew1 & Hkept1 & _).
    destruct (IH (mkState h1 (console s)) _ _ Hown1)
      as (h' & Hrun' & Hown' & Hlen' & Hkept' & Hcs').
    cbn [heap console] in *. rewrite Hlen1 in *.
    exists h'. cbn [insert_all tinsert_all].
    erewrite bind_Ok by exact Hrun. split_conj.
    + exact Hrun'.
    + exact Hown'.
    + simpl. lia.
    + by eapply heap_kept_trans.
    + intros [ | i] c' Hi; simpl in Hi.
      * injection Hi as <-. rewrite Nat.add_0_r.
        destruct (Hkept' _ _ Hnew1) as (n' & Hn' & Hc & _).
        by exists n'.
      * replace (length (heap s) + S i) with (S (length (heap s)) + i) by lia.
        by apply Hcs'.
Qed.

(** ** The record parser *)

Lemma split_fields_length s d :
  length (split_fields s d) = S (count_delim s d).
Proof.
  induction s as [ | ch s IH]; simpl; [done | ].
  destruct (Ascii.eqb ch d); simpl; [by rewrite IH | ].
  destruct (split_fields s d); simpl in *; lia.
Qed.

Lemma drop_trailing_empty_cons f fs :
  fs <> [] -> drop_trailing_empty (f :: fs) = f :: drop_trailing_empty fs.
Proof. by destruct fs. Qed.

Lemma getline_chars_rest s d :
  String.length (getline_chars s d).2 <= pred (String.length s).
Proof.
  induction s as [ | ch s IH]; simpl; [done | ].
  destruct (Ascii.eqb ch d); simpl; [done | ].
  destruct (getline_chars s d) as [token rest]. simpl in *. lia.
Qed.

(** One round of the loop takes the first field off. *)
Lemma fields_step s d :
  s <> EmptyString ->
  drop_trailing_empty (split_fields s d)
  = (getline_chars s d).1
    :: drop_trailing_empty (split_fields (getline_chars s d).2 d).
Proof.
  induction s as [ | ch s IH]; [done | intros _].
  cbn [split_fields getline_chars].
  destruct (Ascii.eqb ch d).
  - cbn [fst snd]. apply drop_trailing_empty_cons.
    intros Hnil. pose proof (split_fields_length s d) as Hlen.
    by rewrite Hnil in Hlen.
  - destruct s as [ | ch' s'].
    + done.
    + specialize (IH ltac:(done)).
      pose proof (split_fields_length (String ch' s') d) as Hlen.
      destruct (getline_chars (String ch' s') d) as [token rest].
      cbn [fst snd] in *.
      destruct (split_fields (String ch' s') d) as [ | f [ | f' fs]];
        [done | | ].
      * cbn [drop_trailing_empty] in IH.
        destruct (String.eqb f EmptyString); [done | ].
        injection IH as -> <-. done.
      * rewrite drop_trailing_empty_cons in IH by done.
        injection IH as -> <-. by rewrite drop_trailing_empty_cons.
Qed.

Lemma splitString_loop_spec fuel : forall s d tokens,
  String.length s <= fuel ->
  splitString_loop fuel s d tokens
  = tokens ++ drop_trailing_empty (split_fields s d).
Proof.
  induction fuel as [ | fuel IH]; intros s d tokens Hlen.
  - destruct s; simpl in *; [by rewrite app_nil_r | lia].
  - destruct s as [ | ch s]; [simpl; by rewrite app_nil_r | ].
    cbn [splitString_loop getline].
    pose proof (getline_chars_rest (String ch s) d) as Hrest.
    rewrite (fields_step (String ch s) d) by done.
    destruct (getline_chars (String ch s) d) as [token rest].
    cbn [fst snd] in *. rewrite IH by (simpl in *; lia).
    by rewrite <- app_assoc.
Qed.

(** The loop yields the fields of the line, less a last field that is
    empty. *)
Lemma splitString_spec s d :
  splitString s d = drop_trailing_empty (split_fields s d).
Proof. unfold splitString. by rewrite splitString_loop_spec. Qed.

Lemma push_prerequisites_spec steps : forall tokens i prereqs,
  length tokens <= i + steps ->
  push_prerequisites steps tokens i prereqs = prereqs ++ drop i tokens.
Proof.
  induction steps as [ | steps IH]; intros tokens i prereqs Hlen; simpl.
  - rewrite drop_ge by lia. by rewrite app_nil_r.
  - destruct (Nat.ltb_spec i (length tokens)) as [Hlt | Hge].
    + destruct (lookup_lt_is_Some_2 tokens i Hlt) as [t Ht]. rewrite Ht.
      rewrite IH by lia. rewrite <- app_assoc. simpl.
      by rewrite (drop_S _ _ _ Ht).
    + rewrite drop_ge by lia. by rewrite app_nil_r.
Qed.

Lemma make_course_spec number title prereqs :
  make_course (number :: title :: prereqs)
  = Some (mkCourse number title prereqs).
Proof.
  unfold make_course. cbn [lookup list_lookup].
  by rewrite push_prerequisites_spec by lia.
Qed.

Lemma parse_line_Some line :
  2 <= length (splitString line comma) ->
  exists number title prereqs,
    splitString line comma = number :: title :: prereqs /\
    parse_line line = Some (mkCourse number title prereqs).
Proof.
  intros Hlen. unfold parse_line.
  destruct (splitString line comma) as [ | number [ | title prereqs]];
    simpl in Hlen; [lia | lia | ].
  exists number, title, prereqs. split; [done | ].
  cbv zeta. destruct (Nat.ltb_spec (length (number :: title :: prereqs)) 2)
    as [Hlt | _]; [simpl in Hlt; lia | ].
  apply make_course_spec.
Qed.

Lemma parse_line_None line :
  parse_line line = None <-> length (splitString line comma) < 2.
Proof.
  split.
  - intros Hnone. destruct (Nat.lt_ge_cases (length (splitString line comma)) 2)
      as [Hlt | Hge]; [done | ].
    destruct (parse_line_Some line Hge) as (? & ? & ? & _ & Hsome). congruence.
  - intros Hlt. unfold parse_line. cbv zeta.
    by destruct (Nat.ltb_spec (length (splitString line comma)) 2); [ | lia].
Qed.

(** ** The loader *)

Lemma load_lines_reject line file p s :
  length (splitString line comma) < 2 ->
  load_lines (line :: file) p s
  = load_lines file p (mkState (heap s) (console s ++ [EvInvalidLine line])).
Proof.
  intros Hlt. cbn [load_lines]. cbv zeta.
  by destruct (Nat.ltb_spec (length (splitString line comma)) 2); [ | lia].
Qed.

Lemma load_lines_accept line file p s c :
  parse_line line = Some c ->
  load_lines (line :: file) p s
  = (p' <- insert p c ;; load_lines file p') s.
Proof.
  unfold parse_line. cbn [load_lines]. cbv zeta.
  destruct (length (splitString line comma) <? 2); [done | ].
  by intros ->.
Qed.

Lemma accepted_cons_None line file :
  parse_line line = None ->
  accepted (line :: file) = accepted file /\
  rejected (line :: file) = EvInvalidLine line :: rejected file.
Proof.
  intros Hnone. unfold accepted, rejected. simpl. rewrite Hnone.
  by rewrite filter_cons_True.
Qed.

Lemma accepted_cons_Some line file c :
  parse_line line = Some c ->
  accepted (line :: file) = c :: accepted file /\
  rejected (line :: file) = rejected file.
Proof.
  intros Hsome. unfold accepted, rejected. simpl. rewrite Hsome.
  rewrite filter_cons_False; [done | by rewrite Hsome].
Qed.

Lemma load_lines_spec file : forall s p t,
  owns (heap s) p t ->
  exists h',
    load_lines file p s
      = Ok (root_ptr (tinsert_all t (length (heap s)) (accepted file)))
           (mkState h' (console s ++ rejected file)) /\
    owns h' (root_ptr (tinsert_all t (length (heap s)) (accepted file)))
         (tinsert_all t (length (heap s)) (accepted file)) /\
    length h' = length (heap s) + length (accepted file) /\
    heap_kept (heap s) h'.
Proof.
  induction file as [ | line file IH]; intros s p t Hown.
  - exists (heap s). destruct s as [h o]. simpl. split_conj.
    + destruct Hown as (-> & _). unfold ret, rejected. simpl.
      by rewrite app_nil_r.
    + destruct Hown as (_ & Hsh & Hnd). by repeat split.
    + unfold accepted. simpl. lia.
    + apply heap_kept_refl.
  - destruct (parse_line line) as [c | ] eqn:Hparse.
    + destruct (accepted_cons_Some _ file _ Hparse) as [-> ->].
      rewrite (load_lines_accept _ _ _ _ _ Hparse).
      destruct (insert_owns s p t c Hown)
        as (h1 & Hrun & Hown1 & Hlen1 & _ & Hkept1 & _).
      destruct (IH (mkState h1 (console s)) _ _ Hown1)
        as (h' & Hrun' & Hown' & Hlen' & Hkept').
      cbn [heap console] in *. rewrite Hlen1 in *.
      exists h'. erewrite bind_Ok by exact Hrun. split_conj.
      * exact Hrun'.
      * exact Hown'.
      * simpl. lia.
      * by eapply heap_kept_trans.
    + destruct (accepted_cons_None _ file Hparse) as [-> ->].
      rewrite load_lines_reject by (by apply parse_line_None).
      destruct (IH (mkState (heap s) (console s ++ [EvInvalidLine line])) p t Hown)
        as (h' & Hrun' & Hown' & Hlen' & Hkept').
      cbn [heap console] in *.
      exists h'. split_conj; try done.
      rewrite Hrun'. by rewrite <- app_assoc.
Qed.

Lemma shape_subtree h s t : shape h t -> subtree s t -> shape h s.
Proof.
  intros Hsh Hsub. induction Hsub as [ | l a c r _ IH | l a c r _ IH];
    [done | | ]; apply IH; simpl in Hsh; tauto.
Qed.

Lemma sorted_numbers cs :
  StronglySorted (fun x y => str_le (courseNumber x) (courseNumber y)) cs ->
  StronglySorted str_le (map courseNumber cs).
Proof.
  induction 1 as [ | c cs Hcs IH Hc]; simpl; constructor; [done | ].
  by apply Forall_map.
Qed.

(** ** The sample tree *)

Lemma sample_owns : owns sample_heap (Some 0) sample_tree.
Proof.
  unfold owns. split_conj.
  - done.
  - simpl. by repeat split.
  - simpl. apply (bool_decide_unpack _). by vm_compute.
Qed.

Lemma sample_bst : bst sample_tree.
Proof.
  apply (bst_tinsert_all [course_B1; course_A; course_B2] Leaf 0 I).
Qed.

Lemma sample_subtree :
  subtree (Node (Node Leaf 1 course_A Leaf) 0 course_B1
                (Node Leaf 2 course_B2 Leaf)) sample_tree.
Proof. constructor. Qed.

(** * The claims *)

(** C1.  Tie-break for duplicate identifiers.  In a catalog tree with
    the ordering invariant, inserting a record whose identifier equals
    that of an existing node puts the new node into that node's right
    subtree: the node keeps its address, its record and its left
    subtree.  On the sample, after inserting the records B1, A, B2 (with
    identifiers B, A, B), the search for "B" returns the node of B1 at the
    root, and the traversal lists A, B1, B2. *)
Theorem C1_duplicate_goes_right :
  (forall s p t c l b d r,
     owns (heap s) p t -> bst t ->
     subtree (Node l b d r) t ->
     courseNumber c = courseNumber d ->
     exists p' s' r',
       insert p c s = Ok p' s' /\
       owns (heap s') p' (tinsert t (length (heap s)) c) /\
       subtree (Node l b d r') (tinsert t (length (heap s)) c) /\
       r' = tinsert r (length (heap s)) c /\
       length (heap s) ∈ addrs r' /\
       heap s' !! length (heap s) = Some (mkTreeNode c nullptr nullptr) /\
       heap s' !! b = Some (mkTreeNode d (root_ptr l) (root_ptr r'))) /\
  (let s := mkState sample_heap [] in
   insert_all [course_B1; course_A; course_B2] nullptr initial_state
     = Ok (Some 0) s /\
   search (Some 0) "B" s = Ok (Some 0) s /\
   course <$> heap s !! 0 = Some course_B1 /\
   traverseInOrder (Some 0) s
     = Ok tt (mkState (heap s) (listing [course_A; course_B1; course_B2]))).
Proof.
  split; [ | by vm_compute].
  intros s p t c l b d r Hown Hbst Hsub Heq.
  destruct (insert_owns s p t c Hown) as (h' & Hrun & Hown' & Hlen & Hnew & _ & _).
  pose proof (tinsert_right_of_equal t l b d r (length (heap s)) c Hbst Hsub Heq)
    as Hsub'.
  eexists _, _, _. split_conj; [exact Hrun | exact Hown' | exact Hsub' | done | | | ].
  - apply elem_of_addrs_tinsert. by left.
  - exact Hnew.
  - destruct Hown' as (_ & Hsh' & _).
    by destruct (shape_subtree _ _ _ Hsh' Hsub') as (Hb & _).
Qed.

Lemma C1_witness :
  owns sample_heap (Some 0) sample_tree /\ bst sample_tree /\
  exists p' s' r',
    insert (Some 0) course_B2 (mkState sample_heap []) = Ok p' s' /\
    owns (heap s') p' (tinsert sample_tree 3 course_B2) /\
    subtree (Node (Node Leaf 1 course_A Leaf) 0 course_B1 r')
            (tinsert sample_tree 3 course_B2) /\
    r' = tinsert (Node Leaf 2 course_B2 Leaf) 3 course_B2 /\
    3 ∈ addrs r' /\
    heap s' !! 3 = Some (mkTreeNode course_B2 nullptr nullptr) /\
    heap s' !! 0 = Some (mkTreeNode course_B1 (Some 1) (root_ptr r')).
Proof.
  split; [exact sample_owns | ]. split; [exact sample_bst | ].
  apply (proj1 C1_duplicate_goes_right (mkState sample_heap []) (Some 0)
           sample_tree course_B2 _ 0 course_B1 _
           sample_owns sample_bst sample_subtree eq_refl).
Defined.

(** C2.  Ordering of the traversal.  Whatever records are inserted, in
    whatever order, into an empty tree, the insertions succeed and the
    in-order traversal lists exactly the inserted records, each as often
    as it was inserted, with their identifiers in non-decreasing
    lexicographic order: each is at most the next, and at most every
    later one. *)
Theorem C2_inorder_sorted :
  forall (cs : list Course) (s0 : state),
  exists p s out,
    insert_all cs nullptr s0 = Ok p s /\
    traverseInOrder p s = Ok tt (mkState (heap s) (console s ++ listing out)) /\
    out ≡ₚ cs /\
    map courseNumber out ≡ₚ map courseNumber cs /\
    Sorted str_le (map courseNumber out) /\
    StronglySorted str_le (map courseNumber out).
Proof.
  intros cs s0.
  destruct (insert_all_spec cs s0 nullptr Leaf (owns_nullptr _))
    as (h' & Hrun & Hown & _).
  eexists _, _, _. split; [exact Hrun | ].
  split; [by apply traverseInOrder_owns | ].
  pose proof (inorder_tinsert_all cs Leaf (length (heap s0))) as Hperm.
  simpl in Hperm.
  split; [exact Hperm | ].
  split; [by apply Permutation_map | ].
  assert (StronglySorted str_le
            (map courseNumber (inorder (tinsert_all Leaf (length (heap s0)) cs))))
    as Hsorted by (by apply sorted_numbers, bst_sorted, bst_tinsert_all).
  split; [by apply StronglySorted_Sorted | done].
Qed.

(** C3.  The ordering invariant.  Every tree built by insertions from
    the empty tree has, at every node, strictly smaller identifiers in
    the left subtree and greater or equal identifiers in the right
    subtree; and an insertion into any tree with this invariant yields a
    tree with it, holding the old records and the new one. *)
Theorem C3_bst_invariant :
  (forall (cs : list Course) (s0 : state),
   exists p s t,
     insert_all cs nullptr s0 = Ok p s /\ owns (heap s) p t /\ bst t) /\
  (forall s p t c,
     owns (heap s) p t -> bst t ->
     exists p' s' t',
       insert p c s = Ok p' s' /\ owns (heap s') p' t' /\ bst t' /\
       inorder t' ≡ₚ c :: inorder t).
Proof.
  split.
  - intros cs s0.
    destruct (insert_all_spec cs s0 nullptr Leaf (owns_nullptr _))
      as (h' & Hrun & Hown & _).
    eexists _, _, _. split_conj; [exact Hrun | exact Hown | ].
    by apply bst_tinsert_all.
  - intros s p t c Hown Hbst.
    destruct (insert_owns s p t c Hown) as (h' & Hrun & Hown' & _).
    eexists _, _, _. split_conj; [exact Hrun | exact Hown' | | ].
    + by apply bst_tinsert.
    + apply inorder_tinsert_perm.
Qed.

Lemma C3_witness :
  owns sample_heap (Some 0) sample_tree /\ bst sample_tree /\
  exists p' s' t',
    insert (Some 0) course_A (mkState sample_heap []) = Ok p' s' /\
    owns (heap s') p' t' /\ bst t' /\
    inorder t' ≡ₚ course_A :: inorder sample_tree.
Proof.
  split; [exact sample_owns | ]. split; [exact sample_bst | ].
  apply (proj2 C3_bst_invariant (mkState sample_heap []) (Some 0)
           sample_tree course_A sample_owns sample_bst).
Defined.

(** C4.  Round trip.  After any insertions into an empty tree, the
    search for the identifier of an inserted record succeeds, with the
    heap as it was: it returns the node of the first inserted record
    with that identifier, so the record itself unless an earlier one with
    the same identifier shadows it. *)
Theorem C4_search_finds_first_inserted :
  forall (cs : list Course) (s0 : state) (c : Course),
    c ∈ cs ->
    exists p s i c1 n,
      insert_all cs nullptr s0 = Ok p s /\
      search p (courseNumber c) s = Ok (Some (length (heap s0) + i)) s /\
      heap s !! (length (heap s0) + i) = Some n /\ course n = c1 /\
      cs !! i = Some c1 /\ courseNumber c1 = courseNumber c /\
      (forall j c', j < i -> cs !! j = Some c' ->
         courseNumber c' <> courseNumber c) /\
      (forall j, cs !! j = Some c ->
         (forall j' c', j' < j -> cs !! j' = Some c' ->
            courseNumber c' <> courseNumber c) ->
         i = j /\ c1 = c).
Proof.
  intros cs s0 c Hin.
  destruct (insert_all_spec cs s0 nullptr Leaf (owns_nullptr _))
    as (h' & Hrun & Hown & _ & _ & Hcs).
  destruct (first_index_is_Some (courseNumber c) cs c Hin eq_refl) as [i Hi].
  destruct (first_index_Some _ _ _ Hi) as (c1 & Hc1 & Hk & Hfirst).
  destruct (Hcs i c1 Hc1) as (n & Hn & Hcn).
  eexists _, _, i, c1, n. split; [exact Hrun | ]. cbn [heap].
  split_conj; try done.
  - rewrite (search_owns (mkState h' (console s0)) _ _ _ Hown),
      tsearch_tinsert_all. simpl.
    by rewrite Hi.
  - intros j Hj Hfirstj.
    assert (i = j) as ->.
    { destruct (Nat.lt_trichotomy i j) as [Hlt | [Heq | Hgt]]; [ | done | ].
      - by destruct (Hfirstj i c1 Hlt Hc1).
      - by destruct (Hfirst j c Hgt Hj). }
    split; [done | congruence].
Qed.

Lemma C4_witness :
  course_B2 ∈ [course_B1; course_A; course_B2] /\
  exists p s i c1 n,
    insert_all [course_B1; course_A; course_B2] nullptr initial_state = Ok p s /\
    search p "B" s = Ok (Some (0 + i)) s /\
    heap s !! (0 + i) = Some n /\ course n = c1 /\
    [course_B1; course_A; course_B2] !! i = Some c1 /\
    courseNumber c1 = "B"%string.
Proof.
  assert (course_B2 ∈ [course_B1; course_A; course_B2]) as Hin
    by repeat constructor.
  split; [exact Hin | ].
  destruct (C4_search_finds_first_inserted
              [course_B1; course_A; course_B2] initial_state course_B2 Hin)
    as (p & s & i & c1 & n & H1 & H2 & H3 & H4 & H5 & H6 & _).
  by exists p, s, i, c1, n.
Defined.

(** C5.  Malformed lines.  A line with fewer than two fields is
    rejected by the parser; the loader reports it, leaves the heap and
    the root as they are, and goes on with the lines that follow.  The
    sample file, whose second line is "garbage", loads into a tree of
    exactly the two records CS101 and CS200. *)
Theorem C5_malformed_line_skipped :
  (forall line file p s,
     length (splitString line comma) < 2 ->
     parse_line line = None /\
     load_lines (line :: file) p s
     = load_lines file p
         (mkState (heap s) (console s ++ [EvInvalidLine line]))) /\
  (length (splitString "garbage" comma) = 1 /\
   let s := mkState loaded_heap [EvOpening; EvInvalidLine "garbage"] in
   loadCoursesFromFile (Some sample_file) initial_state = Ok (Some 0) s /\
   traverseInOrder (Some 0) s
   = Ok tt (mkState loaded_heap
              (console s ++ listing [course_CS101; course_CS200]))).
Proof.
  split; [ | by vm_compute].
  intros line file p s Hlt. split.
  - by apply parse_line_None.
  - by apply load_lines_reject.
Qed.

Lemma C5_witness :
  length (splitString "garbage" comma) < 2 /\
  parse_line "garbage" = None /\
  load_lines ["garbage"%string] nullptr initial_state
  = load_lines [] nullptr
      (mkState [] ([] ++ [EvInvalidLine "garbage"])).
Proof.
  assert (length (splitString "garbage" comma) < 2) as Hlt
    by (vm_compute; lia).
  split; [exact Hlt | ].
  exact (proj1 C5_malformed_line_skipped "garbage"%string [] nullptr
           initial_state Hlt).
Defined.

Lemma drop_trailing_empty_last fields :
  (last fields = Some EmptyString ->
   fields = drop_trailing_empty fields ++ [EmptyString]) /\
  (last fields <> Some EmptyString -> drop_trailing_empty fields = fields).
Proof.
  induction fields as [ | f [ | f' fs] IH].
  - by split.
  - cbn [last drop_trailing_empty].
    destruct (String.eqb_spec f EmptyString) as [-> | Hne]; split; try done.
    intros [= ->]. done.
  - destruct IH as [IH1 IH2].
    rewrite drop_trailing_empty_cons by done.
    change (last (f :: f' :: fs)) with (last (f' :: fs)).
    split; intros H.
    + simpl. f_equal. by apply IH1.
    + f_equal. by apply IH2.
Qed.

(** C6 as the specification words it fails: the line "A," has exactly
    one comma and two fields, the second one empty, but [splitString]
    returns the one field "A", and the loader rejects the line. *)
Lemma C6_counterexample :
  count_delim "A," comma = 1 /\
  split_fields "A," comma = ["A"; ""]%string /\
  splitString "A," comma <> split_fields "A," comma /\
  length (splitString "A," comma) <> 2 /\
  parse_line "A," = None.
Proof. by vm_compute. Qed.

(** C6, amended.  The parser splits a line on the comma into its
    fields in order, empty fields within the line and at its start kept
    as empty strings, but drops a last field that is empty (the line is
    empty or ends with a comma).  So a line with exactly one comma has
    two fields and is accepted when text follows the comma, and has one
    field and is rejected when nothing follows it. *)
Theorem C6_fields_less_trailing_empty :
  forall line : string,
    splitString line comma = drop_trailing_empty (split_fields line comma) /\
    length (split_fields line comma) = S (count_delim line comma) /\
    (last (split_fields line comma) <> Some EmptyString ->
     splitString line comma = split_fields line comma) /\
    (last (split_fields line comma) = Some EmptyString ->
     split_fields line comma = splitString line comma ++ [EmptyString]) /\
    (count_delim line comma = 1 ->
     exists a b,
       split_fields line comma = [a; b] /\
       (b <> EmptyString ->
        splitString line comma = [a; b] /\
        parse_line line = Some (mkCourse a b [])) /\
       (b = EmptyString ->
        splitString line comma = [a] /\ parse_line line = None)).
Proof.
  intros line.
  pose proof (splitString_spec line comma) as Hsplit.
  pose proof (split_fields_length line comma) as Hlen.
  destruct (drop_trailing_empty_last (split_fields line comma)) as [Hl1 Hl2].
  split_conj; try done.
  - intros H. by rewrite Hsplit, Hl2.
  - intros H. rewrite Hsplit. by apply Hl1.
  - intros Hone. rewrite Hone in Hlen.
    destruct (split_fields line comma) as [ | a [ | b [ | ? ?]]];
      try done.
    exists a, b. split; [done | ].
    assert (splitString line comma =
            if String.eqb b EmptyString then [a] else [a; b]) as Hcode.
    { rewrite Hsplit. cbn [drop_trailing_empty].
      by destruct (String.eqb b EmptyString). }
    split.
    + intros Hb. apply String.eqb_neq in Hb. rewrite Hb in Hcode.
      split; [done | ].
      unfold parse_line. rewrite Hcode. cbv zeta. cbn [length Nat.ltb Nat.leb].
      apply make_course_spec.
    + intros ->. cbn [String.eqb] in Hcode. split; [done | ].
      apply parse_line_None. rewrite Hcode. simpl. lia.
Qed.

Lemma C6_witness :
  count_delim "A,B" comma = 1 /\
  exists a b,
    split_fields "A,B" comma = [a; b] /\
    (b <> EmptyString ->
     splitString "A,B" comma = [a; b] /\
     parse_line "A,B" = Some (mkCourse a b [])) /\
    (b = EmptyString ->
     splitString "A,B" comma = [a] /\ parse_line "A,B" = None).
Proof.
  split; [reflexivity | ].
  destruct (C6_fields_less_trailing_empty "A,B") as (_ & _ & _ & _ & H).
  exact (H eq_refl).
Defined.

(** C7 as the specification words it fails: on a fresh session,
    loading a readable file with no line does not make the application
    treat the data as loaded; it reports a failed load, as for a file
    that cannot be opened, and a listing request is then refused. *)
Lemma C7_counterexample :
  mainMenu [Choice1 (Some []); Choice9] initial_session initial_state
  = Ok (mkSession nullptr false)
       (mkState [] [EvOpening; EvLoadFailed; EvExit]) /\
  mainMenu [Choice1 (Some []); Choice2; Choice9] initial_session initial_state
  = Ok (mkSession nullptr false)
       (mkState [] [EvOpening; EvLoadFailed; EvNoData; EvExit]) /\
  dataLoaded (mkSession nullptr false) <> true.
Proof. by vm_compute. Qed.

(** C7, amended.  Loading a readable source with zero lines yields
    the empty tree, the null root, on which the traversal lists nothing
    and the search for any identifier returns not-found.  A load failure
    returns the same null root, and the application takes the empty load
    for one: it reports a failed load and leaves its loaded flag as it
    was. *)
Theorem C7_empty_load :
  forall (s : state) (ss : session) (input : list choice),
    loadCoursesFromFile (Some []) s
    = Ok nullptr (mkState (heap s) (console s ++ [EvOpening])) /\
    loadCoursesFromFile None s
    = Ok nullptr (mkState (heap s) (console s ++ [EvOpening; EvOpenError])) /\
    mainMenu (Choice1 (Some []) :: input) ss s
    = mainMenu input (mkSession nullptr (dataLoaded ss))
        (mkState (heap s) (console s ++ [EvOpening; EvLoadFailed])) /\
    traverseInOrder nullptr s = Ok tt s /\
    (forall number, search nullptr number s = Ok nullptr s).
Proof.
  intros s ss input. split_conj.
  - reflexivity.
  - unfold loadCoursesFromFile, bind, print, ret. cbn [heap console].
    by rewrite <- app_assoc.
  - cbn [mainMenu]. unfold loadCoursesFromFile, bind, print, ret.
    cbn [load_lines heap console]. unfold ret. cbn [heap console].
    by rewrite <- app_assoc.
  - reflexivity.
  - reflexivity.
Qed.

(** C8.  Prerequisites.  For an accepted line, the record has field 0
    as its number, field 1 as its title and the fields from index 2 on,
    in order, as its prerequisites, none for a line of exactly two
    fields; the loader inserts it whatever the catalog holds, without
    looking the prerequisites up.  The line
    "CS200,Advanced,CS101,CS102" gives the prerequisites CS101, CS102
    and loads into an empty catalog. *)
Theorem C8_prerequisites_pass_through :
  (forall line : string,
     2 <= length (splitString line comma) ->
     exists c,
       parse_line line = Some c /\
       splitString line comma !! 0 = Some (courseNumber c) /\
       splitString line comma !! 1 = Some (courseTitle c) /\
       prerequisites c = drop 2 (splitString line comma) /\
       (length (splitString line comma) = 2 -> prerequisites c = []) /\
       (forall file p s,
          load_lines (line :: file) p s
          = (p' <- insert p c ;; load_lines file p') s)) /\
  (parse_line prereq_line = Some course_CS200_full /\
   prerequisites course_CS200_full = ["CS101"; "CS102"]%string /\
   loadCoursesFromFile (Some [prereq_line]) initial_state
   = Ok (Some 0)
        (mkState [mkTreeNode course_CS200_full nullptr nullptr] [EvOpening])).
Proof.
  split; [ | by vm_compute].
  intros line Hlen.
  destruct (parse_line_Some line Hlen)
    as (number & title & prereqs & Htok & Hparse).
  exists (mkCourse number title prereqs). rewrite Htok.
  split_conj; try done.
  - simpl. intros [= Hnil]. by destruct prereqs.
  - intros file p s. by apply load_lines_accept.
Qed.

Lemma C8_witness :
  2 <= length (splitString prereq_line comma) /\
  exists c,
    parse_line prereq_line = Some c /\
    prerequisites c = drop 2 (splitString prereq_line comma).
Proof.
  assert (2 <= length (splitString prereq_line comma)) as Hlen
    by (vm_compute; lia).
  split; [exact Hlen | ].
  destruct (proj1 C8_prerequisites_pass_through prereq_line Hlen)
    as (c & Hc & _ & _ & Hp & _).
  by exists c.
Defined.

(** C9.  Search changes nothing.  On every owned tree and for every
    identifier, the search returns with the state — heap and console —
    exactly as it was; a pointer it returns is the address of a node of
    the tree, holding a record with the identifier asked for; and for an
    identifier that no record of the tree has it returns the null
    pointer: it never faults. *)
Theorem C9_search_frame :
  forall (s : state) (p : ptr) (t : tree) (number : string),
    owns (heap s) p t ->
    exists r,
      search p number s = Ok r s /\
      (forall a, r = Some a ->
         a ∈ addrs t /\
         exists n, heap s !! a = Some n /\ courseNumber (course n) = number) /\
      ((forall c, c ∈ inorder t -> courseNumber c <> number) -> r = nullptr).
Proof.
  intros s p t number Hown.
  exists (tsearch t number). split_conj.
  - by apply search_owns.
  - intros a Ha. destruct Hown as (_ & Hsh & _). by eapply tsearch_found.
  - apply tsearch_absent.
Qed.

Lemma C9_witness :
  owns sample_heap (Some 0) sample_tree /\
  exists r,
    search (Some 0) "C" (mkState sample_heap [])
    = Ok r (mkState sample_heap []) /\
    (forall a, r = Some a ->
       a ∈ addrs sample_tree /\
       exists n, sample_heap !! a = Some n /\
                 courseNumber (course n) = "C"%string) /\
    ((forall c, c ∈ inorder sample_tree -> courseNumber c <> "C"%string) ->
     r = nullptr).
Proof.
  split; [exact sample_owns | ].
  exact (C9_search_frame (mkState sample_heap []) (Some 0) sample_tree "C"
           sample_owns).
Defined.

(** C10.  One node for each insertion.  An insertion into an owned
    tree allocates exactly one node, holding the new record and no
    children; every node that was there stays at its address with its
    record and with each child link it had, and the console is not
    written.  The traversal order of the old records is unchanged, the
    new record standing somewhere among them.  Hence, after inserting
    [n] records into an empty tree, the traversal lists exactly [n]
    records, the inserted ones, each as often as it was inserted. *)
Theorem C10_insert_adds_one_node :
  (forall s p t c,
     owns (heap s) p t ->
     exists p' s' t',
       insert p c s = Ok p' s' /\ owns (heap s') p' t' /\
       t' = tinsert t (length (heap s)) c /\
       length (heap s') = S (length (heap s)) /\
       heap s' !! length (heap s) = Some (mkTreeNode c nullptr nullptr) /\
       heap_kept (heap s) (heap s') /\
       (forall a, a < length (heap s) -> a ∉ addrs t ->
          heap s' !! a = heap s !! a) /\
       console s' = console s /\
       (exists l1 l2, inorder t = l1 ++ l2 /\ inorder t' = l1 ++ c :: l2) /\
       (exists a1 a2,
          addrs t = a1 ++ a2 /\ addrs t' = a1 ++ length (heap s) :: a2)) /\
  (forall (cs : list Course) (s0 : state),
   exists p s out,
     insert_all cs nullptr s0 = Ok p s /\
     length (heap s) = length (heap s0) + length cs /\
     traverseInOrder p s = Ok tt (mkState (heap s) (console s ++ listing out)) /\
     length out = length cs /\
     out ≡ₚ cs).
Proof.
  split.
  - intros s p t c Hown.
    destruct (insert_owns s p t c Hown)
      as (h' & Hrun & Hown' & Hlen & Hnew & Hkept & Hframe).
    eexists _, _, _. split; [exact Hrun | ]. cbn [heap console].
    split_conj; try done.
    + apply inorder_tinsert.
    + apply addrs_tinsert.
  - intros cs s0.
    destruct (insert_all_spec cs s0 nullptr Leaf (owns_nullptr _))
      as (h' & Hrun & Hown & Hlen & _).
    eexists _, _, _. split; [exact Hrun | ]. cbn [heap console].
    split; [done | ].
    split; [by apply (traverseInOrder_owns (mkState h' (console s0))) | ].
    pose proof (inorder_tinsert_all cs Leaf (length (heap s0))) as Hperm.
    simpl in Hperm. split; [by rewrite Hperm | done].
Qed.

Lemma C10_witness :
  owns sample_heap (Some 0) sample_tree /\
  exists p' s' t',
    insert (Some 0) course_A (mkState sample_heap []) = Ok p' s' /\
    owns (heap s') p' t' /\
    length (heap s') = 4 /\
    heap s' !! 3 = Some (mkTreeNode course_A nullptr nullptr) /\
    heap_kept sample_heap (heap s').
Proof.
  split; [exact sample_owns | ].
  destruct (proj1 C10_insert_adds_one_node (mkState sample_heap []) (Some 0)
              sample_tree course_A sample_owns)
    as (p' & s' & t' & H1 & H2 & _ & H3 & H4 & H5 & _).
  by exists p', s', t'.
Defined.

(** * Further properties of the catalog tree *)

Lemma str_lt_neq x y : str_lt x y -> x <> y.
Proof. intros Hlt ->. unfold str_lt in Hlt. by rewrite str_lt_irrefl in Hlt. Qed.

(** On a tree with the ordering invariant the search misses only what
    is not there, and of several records with the number asked for it
    finds the one listed first. *)
Lemma tsearch_first h t k :
  shape h t -> bst t ->
  match tsearch t k with
  | None => forall c, c ∈ inorder t -> courseNumber c <> k
  | Some a =>
    exists n l1 l2,
      h !! a = Some n /\ courseNumber (course n) = k /\
      inorder t = l1 ++ course n :: l2 /\
      forall x, x ∈ l1 -> courseNumber x <> k
  end.
Proof.
  induction t as [ | l IHl b d r IHr]; simpl.
  - intros _ _ c Hc. by apply elem_of_nil in Hc.
  - intros (Hb & Hsl & Hsr) (Hl & Hr & Hbl & Hbr).
    specialize (IHl Hsl Hbl). specialize (IHr Hsr Hbr).
    assert (Hleft : forall x, x ∈ inorder l -> String.ltb k (courseNumber d) = false ->
                       courseNumber x <> k).
    { intros x Hx Hkd <-. apply Hl in Hx. unfold str_lt in Hx. congruence. }
    destruct (String.eqb (courseNumber d) k) eqn:Hdk.
    + apply String.eqb_eq in Hdk.
      exists (mkTreeNode d (root_ptr l) (root_ptr r)), (inorder l), (inorder r).
      split_conj; try done.
      intros x Hx. apply Hleft; [done | ]. rewrite <- Hdk. apply str_lt_irrefl.
    + apply String.eqb_neq in Hdk.
      destruct (String.ltb k (courseNumber d)) eqn:Hkd.
      * assert (Hright : forall x, x ∈ d :: inorder r -> courseNumber x <> k).
        { intros x [-> | Hx]%elem_of_cons; [done | ].
          intros Heq. apply Hr in Hx.
          apply (str_lt_neq k (courseNumber x)); [ | done].
          by apply (str_lt_le_trans _ (courseNumber d)). }
        destruct (tsearch l k) as [a | ].
        -- destruct IHl as (n & l1 & l2 & Hn & Hk & Hin & Hfirst).
           exists n, l1, (l2 ++ d :: inorder r). split_conj; try done.
           rewrite Hin. by rewrite <- app_assoc.
        -- intros c [Hc | Hc]%elem_of_app; [by apply IHl | by apply Hright].
      * destruct (tsearch r k) as [a | ].
        -- destruct IHr as (n & l1 & l2 & Hn & Hk & Hin & Hfirst).
           exists n, (inorder l ++ d :: l1), l2. split_conj; try done.
           ++ rewrite Hin. by rewrite <- app_assoc.
           ++ intros x [Hx | [-> | Hx]%elem_of_cons]%elem_of_app;
                [by apply Hleft | done | by apply Hfirst].
        -- intros c [Hc | [-> | Hc]%elem_of_cons]%elem_of_app;
             [by apply Hleft | done | by apply IHr].
Qed.

Lemma tsearch_course h t k a :
  shape h t -> tsearch t k = Some a ->
  exists n, h !! a = Some n /\ courseNumber (course n) = k /\
            course n ∈ inorder t.
Proof.
  induction t as [ | l IHl b d r IHr]; simpl; [done | ].
  intros (Hb & Hsl & Hsr).
  destruct (String.eqb (courseNumber d) k) eqn:Hdk.
  - intros [= <-]. eexists. split_conj; [done | by apply String.eqb_eq | ].
    simpl. apply elem_of_app. right. apply elem_of_cons. by left.
  - destruct (String.ltb k (courseNumber d)); intros Hs.
    + destruct (IHl Hsl Hs) as (n & Hn & Hk & Hin). exists n.
      split_conj; [done | done | ]. apply elem_of_app. by left.
    + destruct (IHr Hsr Hs) as (n & Hn & Hk & Hin). exists n.
      split_conj; [done | done | ]. apply elem_of_app. right.
      apply elem_of_cons. by right.
Qed.

(** X1.  Lookup on an ordered tree.  On every owned tree with the
    ordering invariant, the search for a number misses only when no
    listed record has that number, and otherwise returns the node of the
    record that the listing shows first among those with that number. *)
Theorem X1_search_first_listed :
  forall (s : state) (p : ptr) (t : tree) (k : string),
    owns (heap s) p t -> bst t ->
    exists r out,
      search p k s = Ok r s /\
      traverseInOrder p s
      = Ok tt (mkState (heap s) (console s ++ listing out)) /\
      match r with
      | None => forall c, c ∈ out -> courseNumber c <> k
      | Some a =>
        exists n l1 l2,
          heap s !! a = Some n /\ courseNumber (course n) = k /\
          out = l1 ++ course n :: l2 /\
          forall x, x ∈ l1 -> courseNumber x <> k
      end.
Proof.
  intros s p t k Hown Hbst.
  exists (tsearch t k), (inorder t).
  split; [by apply search_owns | ].
  split; [by apply traverseInOrder_owns | ].
  destruct Hown as (_ & Hsh & _). by apply tsearch_first.
Qed.

Lemma X1_witness :
  owns sample_heap (Some 0) sample_tree /\ bst sample_tree /\
  exists r out,
    search (Some 0) "B" (mkState sample_heap []) = Ok r (mkState sample_heap []) /\
    traverseInOrder (Some 0) (mkState sample_heap [])
    = Ok tt (mkState sample_heap ([] ++ listing out)) /\
    match r with
    | None => forall c, c ∈ out -> courseNumber c <> "B"%string
    | Some a =>
      exists n l1 l2,
        sample_heap !! a = Some n /\ courseNumber (course n) = "B"%string /\
        out = l1 ++ course n :: l2 /\
        forall x, x ∈ l1 -> courseNumber x <> "B"%string
    end.
Proof.
  split; [exact sample_owns | ]. split; [exact sample_bst | ].
  exact (X1_search_first_listed (mkState sample_heap []) (Some 0) sample_tree
           "B" sample_owns sample_bst).
Defined.

(** X2.  Search after an insertion.  On every owned tree, ordered or
    not, a search after the insertion of a record returns the node it
    returned before; where it found nothing before, it finds the new node
    if the new record has the number asked for, and nothing otherwise. *)
Theorem X2_search_after_insert :
  forall (s : state) (p : ptr) (t : tree) (c : Course) (k : string),
    owns (heap s) p t ->
    exists p' s' r,
      insert p c s = Ok p' s' /\
      search p k s = Ok r s /\
      search p' k s'
      = Ok match r with
           | Some b => Some b
           | None => if String.eqb (courseNumber c) k
                     then Some (length (heap s)) else nullptr
           end s'.
Proof.
  intros s p t c k Hown.
  destruct (insert_owns s p t c Hown) as (h' & Hrun & Hown' & _).
  eexists _, _, (tsearch t k). split; [exact Hrun | ].
  split; [by apply search_owns | ].
  rewrite (search_owns (mkState h' (console s)) _ _ _ Hown').
  by rewrite tsearch_tinsert.
Qed.

Lemma X2_witness :
  owns sample_heap (Some 0) sample_tree /\
  exists p' s' r,
    insert (Some 0) (mkCourse "C" "C" []) (mkState sample_heap []) = Ok p' s' /\
    search (Some 0) "C" (mkState sample_heap []) = Ok r (mkState sample_heap []) /\
    search p' "C" s'
    = Ok match r with
         | Some b => Some b
         | None => if String.eqb "C" "C" then Some 3 else nullptr
         end s'.
Proof.
  split; [exact sample_owns | ].
  exact (X2_search_after_insert (mkState sample_heap []) (Some 0) sample_tree
           (mkCourse "C" "C" []) "C" sample_owns).
Defined.

Lemma filter_none {A} (f : A -> bool) (l : list A) :
  (forall x, x ∈ l -> f x = false) -> List.filter f l = [].
Proof.
  induction l as [ | x l IH]; simpl; [done | ]. intros H.
  rewrite (H x) by set_solver. apply IH. intros y Hy. apply H. set_solver.
Qed.

Lemma filter_inorder_tinsert t a c k :
  bst t ->
  List.filter (number_is k) (inorder (tinsert t a c))
  = List.filter (number_is k) (inorder t) ++ List.filter (number_is k) [c].
Proof.
  induction t as [ | l IHl b d r IHr]; simpl; [done | ].
  intros (Hl & Hr & Hbl & Hbr).
  destruct (String.ltb (courseNumber c) (courseNumber d)) eqn:Hcd; simpl.
  - rewrite !List.filter_app, (IHl Hbl). simpl.
    destruct (number_is k c) eqn:Hck; [ | by rewrite !app_nil_r].
    apply String.eqb_eq in Hck.
    assert (List.filter (number_is k) (d :: inorder r) = []) as Hnone.
    { apply filter_none. intros x Hx. apply String.eqb_neq. intros Heq.
      apply (str_lt_neq (courseNumber c) (courseNumber x)); [ | congruence].
      apply (str_lt_le_trans _ (courseNumber d)); [done | ].
      apply elem_of_cons in Hx as [-> | Hx];
        [apply str_le_refl | by apply Hr]. }
    simpl in Hnone. rewrite Hnone. by rewrite !app_nil_r.
  - rewrite !List.filter_app. simpl. rewrite (IHr Hbr). simpl.
    destruct (number_is k d); simpl; by rewrite <- !app_assoc.
Qed.

Lemma filter_inorder_tinsert_all cs : forall t a k,
  bst t ->
  List.filter (number_is k) (inorder (tinsert_all t a cs))
  = List.filter (number_is k) (inorder t) ++ List.filter (number_is k) cs.
Proof.
  induction cs as [ | c cs IH]; intros t a k Hbst; simpl.
  - by rewrite app_nil_r.
  - rewrite IH by (by apply bst_tinsert).
    rewrite filter_inorder_tinsert by done. simpl.
    destruct (number_is k c); simpl; by rewrite <- ?app_assoc, ?app_nil_r.
Qed.

(** X3.  Records with the same number are listed in the order they
    were inserted: for every number, the listed records with that number
    are the inserted records with that number, in insertion order. *)
Theorem X3_listing_stable :
  forall (cs : list Course) (s0 : state) (k : string),
  exists p s out,
    insert_all cs nullptr s0 = Ok p s /\
    traverseInOrder p s = Ok tt (mkState (heap s) (console s ++ listing out)) /\
    List.filter (number_is k) out = List.filter (number_is k) cs.
Proof.
  intros cs s0 k.
  destruct (insert_all_spec cs s0 nullptr Leaf (owns_nullptr _))
    as (h' & Hrun & Hown & _).
  eexists _, _, _. split; [exact Hrun | ].
  split; [by apply (traverseInOrder_owns (mkState h' (console s0))) | ].
  by rewrite filter_inorder_tinsert_all.
Qed.

Lemma tinsert_spine done : forall a c,
  (forall x, x ∈ done -> str_le (courseNumber x) (courseNumber c)) ->
  tinsert (spine_of a done) (a + length done) c = spine_of a (done ++ [c]).
Proof.
  induction done as [ | x done IH]; intros a c Hle; simpl.
  - by rewrite Nat.add_0_r.
  - assert (String.ltb (courseNumber c) (courseNumber x) = false) as ->
      by (apply ltb_false_leb, Hle; set_solver).
    f_equal. rewrite <- (IH (S a) c) by (intros y Hy; apply Hle; set_solver).
    f_equal. lia.
Qed.

Lemma tinsert_all_spine cs : forall a done,
  StronglySorted (fun x y => str_le (courseNumber x) (courseNumber y))
                 (done ++ cs) ->
  tinsert_all (spine_of a done) (a + length done) cs = spine_of a (done ++ cs).
Proof.
  induction cs as [ | c cs IH]; intros a done Hsorted; simpl.
  - by rewrite app_nil_r.
  - rewrite tinsert_spine.
    + replace (S (a + length done)) with (a + length (done ++ [c]))
        by (rewrite length_app; simpl; lia).
      rewrite IH by (by rewrite <- app_assoc). by rewrite <- app_assoc.
    + intros x Hx. apply StronglySorted_app in Hsorted as (Hcross & _ & _).
      apply Hcross; [done | set_solver].
Qed.

Lemma shape_spine h cs : forall a i c,
  shape h (spine_of a cs) -> cs !! i = Some c ->
  h !! (a + i)
  = Some (mkTreeNode c nullptr
            (if decide (S i < length cs) then Some (a + S i) else nullptr)).
Proof.
  induction cs as [ | c0 cs IH]; intros a i c Hsh Hi; [done | ].
  simpl in Hsh. destruct Hsh as (Ha & _ & Hsh).
  destruct i as [ | i]; simpl in Hi.
  - injection Hi as <-. rewrite Nat.add_0_r, Ha. f_equal. f_equal.
    destruct cs; cbn [spine_of root_ptr length]; case_decide; try lia;
      [done | f_equal; lia].
  - replace (a + S i) with (S a + i) by lia.
    rewrite (IH (S a) i c Hsh Hi). f_equal. f_equal. cbn [length].
    repeat case_decide; try lia; [f_equal; lia | done].
Qed.

Lemma inorder_spine a cs : inorder (spine_of a cs) = cs.
Proof. revert a. induction cs as [ | c cs IH]; intros a; simpl; by rewrite ?IH. Qed.

Lemma height_spine a cs : height (spine_of a cs) = length cs.
Proof. revert a. induction cs as [ | c cs IH]; intros a; simpl; by rewrite ?IH. Qed.

(** X4.  No balancing.  When the records arrive in non-decreasing
    order of their numbers, the tree degenerates into a linked list: the
    node of each record has a null left link and the node of the next
    inserted record as its right child, the depth of the tree is the
    number of records, and the listing is the input order. *)
Theorem X4_sorted_input_degenerates :
  forall (cs : list Course) (s0 : state),
    StronglySorted (fun x y => str_le (courseNumber x) (courseNumber y)) cs ->
    exists p s t,
      insert_all cs nullptr s0 = Ok p s /\
      owns (heap s) p t /\ height t = length cs /\
      (forall i c, cs !! i = Some c ->
         heap s !! (length (heap s0) + i)
         = Some (mkTreeNode c nullptr
                   (if decide (S i < length cs)
                    then Some (length (heap s0) + S i) else nullptr))) /\
      traverseInOrder p s = Ok tt (mkState (heap s) (console s ++ listing cs)).
Proof.
  intros cs s0 Hsorted.
  destruct (insert_all_spec cs s0 nullptr Leaf (owns_nullptr _))
    as (h' & Hrun & Hown & _).
  pose proof (tinsert_all_spine cs (length (heap s0)) [] Hsorted) as Hspine.
  simpl in Hspine. rewrite Nat.add_0_r in Hspine. rewrite Hspine in *.
  eexists _, _, _. split; [exact Hrun | ]. cbn [heap console].
  split; [exact Hown | ]. split; [apply height_spine | ]. split.
  - intros i c Hi. destruct Hown as (_ & Hsh & _). by apply shape_spine.
  - rewrite (traverseInOrder_owns (mkState h' (console s0)) _ _ Hown).
    by rewrite inorder_spine.
Qed.

Lemma X4_witness :
  StronglySorted (fun x y => str_le (courseNumber x) (courseNumber y))
                 [course_A; course_B1; course_B2] /\
  exists p s t,
    insert_all [course_A; course_B1; course_B2] nullptr initial_state = Ok p s /\
    owns (heap s) p t /\ height t = 3.
Proof.
  assert (StronglySorted
            (fun x y => str_le (courseNumber x) (courseNumber y))
            [course_A; course_B1; course_B2]) as Hsorted
    by (repeat constructor).
  split; [exact Hsorted | ].
  destruct (X4_sorted_input_degenerates [course_A; course_B1; course_B2]
              initial_state Hsorted) as (p & s & t & H1 & H2 & H3 & _).
  by exists p, s, t.
Defined.

Lemma inorder_at_addrs h t :
  shape h t ->
  Forall2 (fun a c => exists n, h !! a = Some n /\ course n = c)
          (addrs t) (inorder t).
Proof.
  induction t as [ | l IHl b d r IHr]; simpl; [constructor | ].
  intros (Hb & Hsl & Hsr). apply Forall2_app; [by apply IHl | ].
  constructor; [by eexists | by apply IHr].
Qed.

(** X5.  The listing and the heap.  On every owned tree the traversal
    prints one record for each node, namely the record stored in that
    node, and leaves the heap as it is: a second traversal prints the
    same records again. *)
Theorem X5_traversal_prints_nodes :
  forall (s : state) (p : ptr) (t : tree),
    owns (heap s) p t ->
    exists out,
      traverseInOrder p s
      = Ok tt (mkState (heap s) (console s ++ listing out)) /\
      Forall2 (fun a c => exists n, heap s !! a = Some n /\ course n = c)
              (addrs t) out /\
      traverseInOrder p (mkState (heap s) (console s ++ listing out))
      = Ok tt (mkState (heap s) ((console s ++ listing out) ++ listing out)).
Proof.
  intros s p t Hown. exists (inorder t).
  split; [by apply traverseInOrder_owns | ].
  split; [destruct Hown as (_ & Hsh & _); by apply inorder_at_addrs | ].
  by apply (traverseInOrder_owns (mkState (heap s) _)).
Qed.

Lemma X5_witness :
  owns sample_heap (Some 0) sample_tree /\
  exists out,
    traverseInOrder (Some 0) (mkState sample_heap [])
    = Ok tt (mkState sample_heap ([] ++ listing out)) /\
    Forall2 (fun a c => exists n, sample_heap !! a = Some n /\ course n = c)
            (addrs sample_tree) out.
Proof.
  split; [exact sample_owns | ].
  destruct (X5_traversal_prints_nodes (mkState sample_heap []) (Some 0)
              sample_tree sample_owns) as (out & H1 & H2 & _).
  by exists out.
Defined.

Lemma displayCourseInfo_owns s p t k :
  owns (heap s) p t ->
  exists found,
    displayCourseInfo p k s
    = Ok tt (mkState (heap s) (console s ++ [info_event found])) /\
    match tsearch t k with
    | Some a => exists n, heap s !! a = Some n /\ found = Some (course n)
    | None => found = None
    end.
Proof.
  intros Hown. unfold displayCourseInfo.
  erewrite bind_Ok by (by apply search_owns).
  destruct Hown as (_ & Hsh & _).
  destruct (tsearch t k) as [a | ] eqn:Hs.
  - destruct (tsearch_course _ _ _ _ Hsh Hs) as (n & Hn & _).
    exists (Some (course n)). split; [ | by exists n].
    by erewrite bind_Ok by (by apply deref_Ok).
  - by exists None.
Qed.

(** X6.  Course details.  On every owned tree [displayCourseInfo]
    prints exactly one message and changes nothing else: the details of
    a record of the tree that has the number asked for, or "not found".
    It prints "not found" whenever no record has the number and, on a
    tree with the ordering invariant, only then. *)
Theorem X6_course_info :
  forall (s : state) (p : ptr) (t : tree) (k : string),
    owns (heap s) p t ->
    exists found,
      displayCourseInfo p k s
      = Ok tt (mkState (heap s) (console s ++ [info_event found])) /\
      (forall c, found = Some c -> courseNumber c = k /\ c ∈ inorder t) /\
      ((forall c, c ∈ inorder t -> courseNumber c <> k) -> found = None) /\
      (bst t -> found = None ->
       forall c, c ∈ inorder t -> courseNumber c <> k).
Proof.
  intros s p t k Hown.
  destruct (displayCourseInfo_owns s p t k Hown) as (found & Hrun & Hfound).
  exists found. split; [exact Hrun | ].
  destruct Hown as (_ & Hsh & _).
  destruct (tsearch t k) as [a | ] eqn:Hs.
  - destruct Hfound as (n & Hn & ->).
    destruct (tsearch_course _ _ _ _ Hsh Hs) as (n' & Hn' & Hk & Hin).
    assert (n' = n) as -> by congruence.
    split_conj.
    + by intros c [= <-].
    + intros Hnone. by destruct (Hnone _ Hin).
    + done.
  - subst found. split_conj; [done | done | ].
    intros Hbst _. pose proof (tsearch_first _ _ k Hsh Hbst) as Hfirst.
    by rewrite Hs in Hfirst.
Qed.

Lemma X6_witness :
  owns sample_heap (Some 0) sample_tree /\
  exists found,
    displayCourseInfo (Some 0) "A" (mkState sample_heap [])
    = Ok tt (mkState sample_heap ([] ++ [info_event found])) /\
    (forall c, found = Some c ->
       courseNumber c = "A"%string /\ c ∈ inorder sample_tree).
Proof.
  split; [exact sample_owns | ].
  destruct (X6_course_info (mkState sample_heap []) (Some 0) sample_tree "A"
              sample_owns) as (found & H1 & H2 & _).
  by exists found.
Defined.

(** * Further properties of the record parser *)

Lemma split_fields_no_comma f d :
  count_delim f d = 0 -> split_fields f d = [f].
Proof.
  induction f as [ | ch f IH]; simpl; [done | ].
  destruct (Ascii.eqb ch d); [done | ]. intros H. by rewrite IH.
Qed.

Lemma split_fields_app f rest d :
  count_delim f d = 0 ->
  split_fields (f ++ String d rest) d = f :: split_fields rest d.
Proof.
  induction f as [ | ch f IH]; simpl.
  - by rewrite Ascii.eqb_refl.
  - destruct (Ascii.eqb ch d); [done | ]. intros H. by rewrite IH.
Qed.

Lemma join_fields_cons f f' fs :
  join_fields (f :: f' :: fs)
  = (f ++ String comma (join_fields (f' :: fs)))%string.
Proof. done. Qed.

Lemma split_fields_join fields :
  fields <> [] -> Forall no_comma fields ->
  split_fields (join_fields fields) comma = fields.
Proof.
  induction fields as [ | f [ | f' fs] IH]; [done | | ]; intros _ Hall.
  - apply split_fields_no_comma. by apply Forall_inv in Hall.
  - rewrite join_fields_cons, split_fields_app by (by apply Forall_inv in Hall).
    f_equal. apply IH; [done | by apply Forall_inv_tail in Hall].
Qed.

Lemma join_split_fields s : join_fields (split_fields s comma) = s.
Proof.
  induction s as [ | ch s IH]; [done | ]. cbn [split_fields].
  pose proof (split_fields_length s comma) as Hlen.
  destruct (Ascii.eqb_spec ch comma) as [-> | Hne].
  - destruct (split_fields s comma) as [ | f fs]; [done | ].
    rewrite join_fields_cons. simpl. by rewrite IH.
  - destruct (split_fields s comma) as [ | f [ | f' fs]]; [done | | ].
    + unfold join_fields in *. simpl in *. by rewrite IH.
    + rewrite join_fields_cons in *. simpl. by rewrite IH.
Qed.

Lemma split_fields_all_no_comma s : Forall no_comma (split_fields s comma).
Proof.
  induction s as [ | ch s IH]; simpl; [by repeat constructor | ].
  destruct (Ascii.eqb ch comma) eqn:Hch; [by constructor | ].
  destruct (split_fields s comma) as [ | f fs].
  - repeat constructor. unfold no_comma. simpl. by rewrite Hch.
  - apply Forall_cons in IH as [Hf Hfs]. constructor; [ | done].
    unfold no_comma in *. simpl. by rewrite Hch.
Qed.

Lemma drop_trailing_empty_Forall (P : string -> Prop) fields :
  Forall P fields -> Forall P (drop_trailing_empty fields).
Proof.
  induction fields as [ | f [ | f' fs] IH]; intros Hall; [done | | ].
  - simpl. by destruct (String.eqb f EmptyString).
  - rewrite drop_trailing_empty_cons by done.
    apply Forall_cons in Hall as [Hf Hfs]. constructor; [done | by apply IH].
Qed.

Lemma join_fields_snoc_empty fields :
  fields <> [] ->
  join_fields (fields ++ [EmptyString])
  = (join_fields fields ++ String comma EmptyString)%string.
Proof.
  induction fields as [ | f [ | f' fs] IH]; [done | done | ]. intros _.
  change ((f :: f' :: fs) ++ [EmptyString])
    with (f :: (f' :: fs) ++ [EmptyString]).
  change ((f' :: fs) ++ [EmptyString]) with (f' :: fs ++ [EmptyString]) at 1.
  rewrite !join_fields_cons.
  change (f' :: fs ++ [EmptyString]) with ((f' :: fs) ++ [EmptyString]).
  rewrite IH by done.
  generalize (join_fields (f' :: fs)). intros rest.
  induction f as [ | ch f IHf]; simpl; [done | by rewrite IHf].
Qed.

(** How the fields returned relate to all the fields of the line. *)
Lemma splitString_cases line :
  (splitString line comma = split_fields line comma /\
   last (split_fields line comma) <> Some EmptyString) \/
  (split_fields line comma = splitString line comma ++ [EmptyString]).
Proof.
  rewrite splitString_spec.
  destruct (drop_trailing_empty_last (split_fields line comma)) as [H1 H2].
  destruct (last (split_fields line comma)) as [f | ] eqn:Hlast.
  - destruct (String.eqb_spec f EmptyString) as [-> | Hne].
    + right. by apply H1.
    + left. split; [apply H2 | ]; congruence.
  - left. split; [by apply H2 | done].
Qed.

(** X7.  Parsing what was written.  For fields free of commas, at
    least two of them and the last one not empty, splitting the line made
    of the fields joined by commas gives back exactly the fields, and the
    parser returns the record with the first field as number, the second
    as title and the others as prerequisites. *)
Theorem X7_split_inverts_join :
  forall (number title : string) (prereqs : list string),
    Forall no_comma (number :: title :: prereqs) ->
    last (number :: title :: prereqs) <> Some EmptyString ->
    splitString (join_fields (number :: title :: prereqs)) comma
    = number :: title :: prereqs /\
    parse_line (join_fields (number :: title :: prereqs))
    = Some (mkCourse number title prereqs).
Proof.
  intros number title prereqs Hall Hlast.
  assert (splitString (join_fields (number :: title :: prereqs)) comma
          = number :: title :: prereqs) as Hsplit.
  { rewrite splitString_spec, split_fields_join by done.
    by apply drop_trailing_empty_last. }
  split; [done | ].
  unfold parse_line. rewrite Hsplit. cbv zeta. cbn [length Nat.ltb Nat.leb].
  apply make_course_spec.
Qed.

Lemma X7_witness :
  Forall no_comma ["CS200"; "Advanced"; "CS101"]%string /\
  last ["CS200"; "Advanced"; "CS101"]%string <> Some EmptyString /\
  parse_line (join_fields ["CS200"; "Advanced"; "CS101"]%string)
  = Some (mkCourse "CS200" "Advanced" ["CS101"%string]).
Proof.
  assert (Forall no_comma ["CS200"; "Advanced"; "CS101"]%string) as Hall
    by (repeat constructor).
  assert (last ["CS200"; "Advanced"; "CS101"]%string <> Some EmptyString)
    as Hlast by done.
  split; [exact Hall | ]. split; [exact Hlast | ].
  exact (proj2 (X7_split_inverts_join "CS200" "Advanced" ["CS101"%string]
                  Hall Hlast)).
Defined.

(** X8.  Nothing lost but a trailing comma.  No field that
    [splitString] returns contains a comma, and the fields joined by
    commas give back the line, or the line less the comma it ends with. *)
Theorem X8_fields_rebuild_line :
  forall line : string,
    Forall no_comma (splitString line comma) /\
    (line = join_fields (splitString line comma) \/
     line = (join_fields (splitString line comma)
             ++ String comma EmptyString)%string).
Proof.
  intros line. split.
  - rewrite splitString_spec.
    apply drop_trailing_empty_Forall, split_fields_all_no_comma.
  - pose proof (join_split_fields line) as Hjoin.
    destruct (splitString_cases line) as [[Heq _] | Heq].
    + left. by rewrite Heq.
    + rewrite Heq in Hjoin.
      destruct (splitString line comma) as [ | f fs] eqn:Hcode.
      * left. by rewrite <- Hjoin.
      * right. by rewrite join_fields_snoc_empty in Hjoin.
Qed.

(** X9.  The lines the loader rejects.  A line is rejected exactly
    when it contains no comma, or consists of comma-free text followed by
    one comma that ends the line. *)
Theorem X9_rejected_lines :
  forall line : string,
    parse_line line = None <->
    count_delim line comma = 0 \/
    exists a, no_comma a /\ line = (a ++ String comma EmptyString)%string.
Proof.
  intros line. rewrite parse_line_None. split.
  - intros Hlt.
    pose proof (split_fields_length line comma) as Hlen.
    pose proof (join_split_fields line) as Hjoin.
    pose proof (split_fields_all_no_comma line) as Hall.
    destruct (splitString_cases line) as [[Heq _] | Heq].
    + left. rewrite Heq in Hlt. lia.
    + rewrite Heq in Hlen, Hjoin, Hall. rewrite length_app in Hlen.
      simpl in Hlen.
      destruct (splitString line comma) as [ | a [ | ? ?]];
        simpl in Hlt, Hlen; [left; lia | | lia].
      right. exists a. split; [by apply Forall_inv in Hall | ].
      by rewrite <- Hjoin.
  - intros [Hzero | (a & Ha & ->)]; rewrite splitString_spec.
    + rewrite split_fields_no_comma by done. simpl.
      destruct (String.eqb line EmptyString); simpl; lia.
    + rewrite split_fields_app by done. simpl. lia.
Qed.

(** * Further properties of the loader *)

Lemma root_ptr_tinsert_all cs : forall t a,
  root_ptr (tinsert_all t a cs) = nullptr <-> t = Leaf /\ cs = [].
Proof.
  induction cs as [ | c cs IH]; intros t a; simpl.
  - destruct t; split; try done. by intros [? _].
  - rewrite IH. split; [ | by intros [_ ?]].
    intros [Hleaf _]. destruct t; simpl in Hleaf; [done | ].
    by destruct (String.ltb _ _).
Qed.

(** The loader's loop on an owned tree none of whose nodes lies below
    [n0]: the heap below [n0] is not written, and the [i]-th accepted
    record is in the [i]-th node allocated. *)
Lemma load_lines_frame file : forall s p t n0,
  owns (heap s) p t ->
  (forall a, a ∈ addrs t -> n0 <= a) -> n0 <= length (heap s) ->
  exists h',
    load_lines file p s
      = Ok (root_ptr (tinsert_all t (length (heap s)) (accepted file)))
           (mkState h' (console s ++ rejected file)) /\
    owns h' (root_ptr (tinsert_all t (length (heap s)) (accepted file)))
         (tinsert_all t (length (heap s)) (accepted file)) /\
    length h' = length (heap s) + length (accepted file) /\
    heap_kept (heap s) h' /\
    (forall a, a < n0 -> h' !! a = heap s !! a) /\
    (forall i c, accepted file !! i = Some c ->
       exists n, h' !! (length (heap s) + i) = Some n /\ course n = c).
Proof.
  induction file as [ | line file IH]; intros s p t n0 Hown Hlow Hn0.
  - exists (heap s). destruct s as [h o]. simpl. split_conj.
    + destruct Hown as (-> & _). unfold ret, rejected. simpl.
      by rewrite app_nil_r.
    + destruct Hown as (_ & Hsh & Hnd). by repeat split.
    + unfold accepted. simpl. lia.
    + apply heap_kept_refl.
    + done.
    + done.
  - destruct (parse_line line) as [c | ] eqn:Hparse.
    + destruct (accepted_cons_Some _ file _ Hparse) as [-> ->].
      rewrite (load_lines_accept _ _ _ _ _ Hparse).
      destruct (insert_owns s p t c Hown)
        as (h1 & Hrun & Hown1 & Hlen1 & Hnew1 & Hkept1 & Hframe1).
      destruct (IH (mkState h1 (console s)) _ _ n0 Hown1)
        as (h' & Hrun' & Hown' & Hlen' & Hkept' & Hframe' & Hcs').
      { intros a [-> | Ha]%elem_of_addrs_tinsert; [done | by apply Hlow]. }
      { cbn [heap]. lia. }
      cbn [heap console] in *. rewrite Hlen1 in *.
      exists h'. erewrite bind_Ok by exact Hrun. split_conj.
      * exact Hrun'.
      * exact Hown'.
      * simpl. lia.
      * by eapply heap_kept_trans.
      * intros a Ha. rewrite Hframe' by done. apply Hframe1; [lia | ].
        intros Hin. apply Hlow in Hin. lia.
      * intros [ | i] c' Hi; simpl in Hi.
        -- injection Hi as <-. rewrite Nat.add_0_r.
           destruct (Hkept' _ _ Hnew1) as (n' & Hn' & Hc & _).
           by exists n'.
        -- replace (length (heap s) + S i) with (S (length (heap s)) + i)
             by lia.
           by apply Hcs'.
    + destruct (accepted_cons_None _ file Hparse) as [-> ->].
      rewrite load_lines_reject by (by apply parse_line_None).
      destruct (IH (mkState (heap s) (console s ++ [EvInvalidLine line]))
                   p t n0 Hown Hlow Hn0)
        as (h' & Hrun' & Hown' & Hlen' & Hkept' & Hframe' & Hcs').
      cbn [heap console] in *.
      exists h'. split_conj; try done.
      rewrite Hrun'. by rewrite <- app_assoc.
Qed.

(** A call of the loader, from any state. *)
Lemma loadCoursesFromFile_spec file s :
  exists new,
    loadCoursesFromFile file s
    = Ok (root_ptr (tinsert_all Leaf (length (heap s)) (file_records file)))
         (mkState (heap s ++ new) (console s ++ load_messages file)) /\
    owns (heap s ++ new)
         (root_ptr (tinsert_all Leaf (length (heap s)) (file_records file)))
         (tinsert_all Leaf (length (heap s)) (file_records file)) /\
    map course new = file_records file.
Proof.
  destruct file as [lines | ]; cbn [file_records load_messages].
  - destruct (load_lines_frame lines
                (mkState (heap s) (console s ++ [EvOpening])) nullptr Leaf
                (length (heap s)) (owns_nullptr _))
      as (h' & Hrun & Hown & Hlen & _ & Hframe & Hcs);
      [by intros a Ha%elem_of_nil | done | ].
    cbn [heap console] in *.
    assert (h' = heap s ++ drop (length (heap s)) h') as Hsplit.
    { rewrite <- (take_drop (length (heap s)) h') at 1. f_equal.
      apply list_eq. intros i.
      destruct (decide (i < length (heap s))) as [Hi | Hi].
      - rewrite lookup_take_lt by done. by apply Hframe.
      - rewrite lookup_take_ge by lia. symmetry. apply lookup_ge_None. lia. }
    exists (drop (length (heap s)) h'). rewrite <- Hsplit. split_conj.
    + unfold loadCoursesFromFile. erewrite bind_Ok by reflexivity.
      cbn [heap console]. rewrite Hrun. by rewrite <- app_assoc.
    + exact Hown.
    + apply list_eq. intros i. change map with (@fmap list _) at 1.
      rewrite list_lookup_fmap, lookup_drop.
      destruct (accepted lines !! i) as [c | ] eqn:Hi.
      * destruct (Hcs i c Hi) as (n & -> & <-). done.
      * apply lookup_ge_None in Hi.
        rewrite (proj2 (lookup_ge_None h' _)) by lia. done.
  - exists []. rewrite app_nil_r. split_conj; [ | apply owns_nullptr | done].
    unfold loadCoursesFromFile, bind, print, ret. cbn [heap console].
    by rewrite <- app_assoc.
Qed.

(** X10.  What a load returns.  From any state and for any file the
    loader returns normally, having printed its opening message and then
    either the open error or one message for each rejected line, in
    order; the root it returns is null exactly when the file gave no
    record: it could not be opened, was empty, or had malformed lines
    only. *)
Theorem X10_load_result :
  forall (file : option (list string)) (s : state),
  exists p s',
    loadCoursesFromFile file s = Ok p s' /\
    console s' = console s ++ load_messages file /\
    (p = nullptr <-> file_records file = []).
Proof.
  intros file s.
  destruct (loadCoursesFromFile_spec file s) as (new & Hrun & _).
  eexists _, _. split; [exact Hrun | ]. split; [done | ].
  rewrite root_ptr_tinsert_all. split; [by intros [_ ?] | done].
Qed.

(** X11.  What a load allocates.  A load leaves every node allocated
    before it untouched, in place and unfreed, and appends one node for
    each accepted line, in the order of the lines, holding the record of
    that line. *)
Theorem X11_load_appends_nodes :
  forall (file : option (list string)) (s : state),
  exists p s' new,
    loadCoursesFromFile file s = Ok p s' /\
    heap s' = heap s ++ new /\
    map course new = file_records file.
Proof.
  intros file s.
  destruct (loadCoursesFromFile_spec file s) as (new & Hrun & _ & Hnew).
  by eexists _, _, new.
Qed.

(** * Further properties of the menu loop *)

Lemma mainMenu_load file input ss s :
  exists new,
    let p := root_ptr (tinsert_all Leaf (length (heap s)) (file_records file)) in
    mainMenu (Choice1 file :: input) ss s
    = mainMenu input
        (mkSession p (match p with Some _ => true | None => dataLoaded ss end))
        (mkState (heap s ++ new)
           (console s ++ load_messages file
              ++ [match p with Some _ => EvLoaded | None => EvLoadFailed end])) /\
    owns (heap s ++ new) p
         (tinsert_all Leaf (length (heap s)) (file_records file)) /\
    map course new = file_records file.
Proof.
  destruct (loadCoursesFromFile_spec file s) as (new & Hrun & Hown & Hnew).
  exists new. cbv zeta. split; [ | by split].
  cbn [mainMenu]. erewrite bind_Ok by exact Hrun.
  destruct (root_ptr _); erewrite bind_Ok by reflexivity;
    cbn [heap console]; by rewrite <- app_assoc.
Qed.

Lemma mainMenu_list input ss s t :
  dataLoaded ss = true -> owns (heap s) (root ss) t ->
  mainMenu (Choice2 :: input) ss s
  = mainMenu input ss
      (mkState (heap s) (console s ++ EvListHeader :: listing (inorder t))).
Proof.
  intros Hloaded Hown. cbn [mainMenu]. rewrite Hloaded.
  erewrite bind_Ok; [reflexivity | ].
  erewrite bind_Ok by reflexivity.
  rewrite (traverseInOrder_owns (mkState (heap s) _) _ t) by done.
  cbn [heap console]. by rewrite <- app_assoc.
Qed.

Lemma mainMenu_info input ss s t k :
  dataLoaded ss = true -> owns (heap s) (root ss) t ->
  exists found,
    mainMenu (Choice3 k :: input) ss s
    = mainMenu input ss
        (mkState (heap s) (console s ++ [info_event found])) /\
    match tsearch t k with
    | Some a => exists n, heap s !! a = Some n /\ found = Some (course n)
    | None => found = None
    end.
Proof.
  intros Hloaded Hown.
  destruct (displayCourseInfo_owns s (root ss) t k Hown)
    as (found & Hrun & Hfound).
  exists found. split; [ | done].
  cbn [mainMenu]. rewrite Hloaded. by erewrite bind_Ok by exact Hrun.
Qed.






Lemma first_index_find k cs :
  List.find (number_is k) cs
  = match first_index k cs with
    | Some i => cs !! i
    | None => None
    end.
Proof.
  induction cs as [ | c cs IH]; simpl; [done | ]. unfold number_is at 1.
  destruct (String.eqb (courseNumber c) k); [done | ].
  rewrite IH. by destruct (first_index k cs).
Qed.

Lemma mainMenu_load_ok lines input ss s :
  accepted lines <> [] ->
  exists a new,
    mainMenu (Choice1 (Some lines) :: input) ss s
    = mainMenu input (mkSession (Some a) true)
        (mkState (heap s ++ new)
           (console s ++ EvOpening :: rejected lines ++ [EvLoaded])) /\
    owns (heap s ++ new) (Some a)
         (tinsert_all Leaf (length (heap s)) (accepted lines)) /\
    map course new = accepted lines.
Proof.
  intros Hacc.
  destruct (mainMenu_load (Some lines) input ss s) as (new & Hrun & Hown & Hnew).
  cbv zeta in Hrun. cbn [file_records load_messages] in *.
  destruct (root_ptr (tinsert_all Leaf (length (heap s)) (accepted lines)))
    as [a | ] eqn:Hroot.
  - exists a, new. by split_conj.
  - apply root_ptr_tinsert_all in Hroot as [_ Hnil]. done.
Qed.

(** X13.  Load, then list.  After loading a file with at least one
    accepted line, the listing request prints the header and then the
    records of the accepted lines, each once, in non-decreasing order of
    their numbers, records with the same number in the order of their
    lines. *)
Theorem X13_load_then_list :
  forall (lines : list string) (input : list choice) (ss : session) (s : state),
    accepted lines <> [] ->
    exists a new out,
      mainMenu (Choice1 (Some lines) :: Choice2 :: input) ss s
      = mainMenu input (mkSession (Some a) true)
          (mkState (heap s ++ new)
             (console s ++ EvOpening :: rejected lines
                ++ [EvLoaded; EvListHeader] ++ listing out)) /\
      out ≡ₚ accepted lines /\
      StronglySorted str_le (map courseNumber out) /\
      (forall k, List.filter (number_is k) out
                 = List.filter (number_is k) (accepted lines)).
Proof.
  intros lines input ss s Hacc.
  destruct (mainMenu_load_ok lines (Choice2 :: input) ss s Hacc)
    as (a & new & Hrun & Hown & _).
  exists a, new, (inorder (tinsert_all Leaf (length (heap s)) (accepted lines))).
  split_conj.
  - rewrite Hrun.
    erewrite (mainMenu_list input (mkSession (Some a) true)
                (mkState (heap s ++ new) _) _ eq_refl Hown).
    cbn [heap console]. f_equal. f_equal.
    rewrite <- !app_assoc. simpl. by rewrite <- !app_assoc.
  - by rewrite inorder_tinsert_all.
  - by apply sorted_numbers, bst_sorted, bst_tinsert_all.
  - intros k. by rewrite filter_inorder_tinsert_all.
Qed.

Lemma X13_witness :
  accepted sample_file <> [] /\
  exists a new out,
    mainMenu [Choice1 (Some sample_file); Choice2; Choice9]
             initial_session initial_state
    = mainMenu [Choice9] (mkSession (Some a) true)
        (mkState ([] ++ new)
           ([] ++ EvOpening :: rejected sample_file
              ++ [EvLoaded; EvListHeader] ++ listing out)) /\
    out ≡ₚ accepted sample_file.
Proof.
  assert (accepted sample_file <> []) as Hacc by (by vm_compute).
  split; [exact Hacc | ].
  destruct (X13_load_then_list sample_file [Choice9] initial_session
              initial_state Hacc)
    as (a & new & out & H1 & H2 & _).
  by exists a, new, out.
Defined.

(** X14.  Load, then look up.  After loading a file with at least one
    accepted line, the request for the details of a number prints the
    record of the first accepted line with that number, or "not found"
    when no accepted line has it. *)
Theorem X14_load_then_lookup :
  forall (lines : list string) (k : string) (input : list choice)
         (ss : session) (s : state),
    accepted lines <> [] ->
    exists a new,
      mainMenu (Choice1 (Some lines) :: Choice3 k :: input) ss s
      = mainMenu input (mkSession (Some a) true)
          (mkState (heap s ++ new)
             (console s ++ EvOpening :: rejected lines
                ++ [EvLoaded;
                    info_event (List.find (number_is k) (accepted lines))])).
Proof.
  intros lines k input ss s Hacc.
  destruct (mainMenu_load_ok lines (Choice3 k :: input) ss s Hacc)
    as (a & new & Hrun & Hown & Hnew).
  exists a, new. rewrite Hrun.
  destruct (mainMenu_info input (mkSession (Some a) true)
              (mkState (heap s ++ new)
                 (console s ++ EvOpening :: rejected lines ++ [EvLoaded]))
              _ k eq_refl Hown) as (found & -> & Hfound).
  cbn [heap console] in *.
  assert (found = List.find (number_is k) (accepted lines)) as ->.
  { rewrite first_index_find. rewrite tsearch_tinsert_all in Hfound.
    cbn [tsearch] in Hfound.
    destruct (first_index k (accepted lines)) as [i | ]; simpl in Hfound;
      [ | done].
    destruct Hfound as (n & Hn & ->).
    rewrite lookup_app_r in Hn by lia.
    replace (length (heap s) + i - length (heap s)) with i in Hn by lia.
    rewrite <- Hnew. change map with (@fmap list _).
    by rewrite list_lookup_fmap, Hn. }
  f_equal. f_equal. rewrite <- !app_assoc. simpl. by rewrite <- !app_assoc.
Qed.

Lemma X14_witness :
  accepted sample_file <> [] /\
  exists a new,
    mainMenu [Choice1 (Some sample_file); Choice3 "CS200"; Choice9]
             initial_session initial_state
    = mainMenu [Choice9] (mkSession (Some a) true)
        (mkState ([] ++ new)
           ([] ++ EvOpening :: rejected sample_file
              ++ [EvLoaded;
                  info_event (List.find (number_is "CS200")
                                        (accepted sample_file))])).
Proof.
  assert (accepted sample_file <> []) as Hacc by (by vm_compute).
  split; [exact Hacc | ].
  exact (X14_load_then_lookup sample_file "CS200" [Choice9] initial_session
           initial_state Hacc).
Defined.

(** X15.  A failed reload.  When a load that yields no record follows
    a successful one, the catalog is gone although the data still counts
    as loaded: the root is null, no node is freed or allocated, a listing
    request prints the header and no course, and every lookup prints
    "not found". *)
Theorem X15_failed_reload :
  forall (file : option (list string)) (input : list choice)
         (ss : session) (s : state),
    file_records file = [] -> dataLoaded ss = true ->
    mainMenu (Choice1 file :: Choice2 :: input) ss s
    = mainMenu input (mkSession nullptr true)
        (mkState (heap s)
           (console s ++ load_messages file ++ [EvLoadFailed; EvListHeader])) /\
    forall k,
      mainMenu (Choice1 file :: Choice3 k :: input) ss s
      = mainMenu input (mkSession nullptr true)
          (mkState (heap s)
             (console s ++ load_messages file ++ [EvLoadFailed; EvNotFound])).
Proof.
  intros file input ss s Hnone Hloaded.
  assert (Hload : forall input',
            mainMenu (Choice1 file :: input') ss s
            = mainMenu input' (mkSession nullptr true)
                (mkState (heap s)
                   (console s ++ load_messages file ++ [EvLoadFailed]))).
  { intros input'.
    destruct (mainMenu_load file input' ss s) as (new & Hrun & _ & Hnew).
    cbv zeta in Hrun. rewrite Hnone in Hrun, Hnew. cbn [tinsert_all root_ptr] in Hrun.
    destruct new; [ | done]. by rewrite app_nil_r, Hloaded in Hrun. }
  split; [ | intros k]; rewrite Hload.
  - erewrite (mainMenu_list input (mkSession nullptr true)
                (mkState (heap s) _) Leaf eq_refl (owns_nullptr _)).
    cbn [heap console inorder listing map]. f_equal. f_equal.
    by rewrite <- !app_assoc.
  - destruct (mainMenu_info input (mkSession nullptr true)
                (mkState (heap s)
                   (console s ++ load_messages file ++ [EvLoadFailed]))
                Leaf k eq_refl (owns_nullptr _)) as (found & -> & ->).
    cbn [heap console info_event]. f_equal. f_equal.
    by rewrite <- !app_assoc.
Qed.

Lemma X15_witness :
  file_records None = [] /\ dataLoaded (mkSession (Some 0) true) = true /\
  mainMenu [Choice1 None; Choice2; Choice9] (mkSession (Some 0) true)
           (mkState sample_heap [])
  = mainMenu [Choice9] (mkSession nullptr true)
      (mkState sample_heap
         ([] ++ load_messages None ++ [EvLoadFailed; EvListHeader])).
Proof.
  split; [reflexivity | ]. split; [reflexivity | ].
  exact (proj1 (X15_failed_reload None [Choice9] (mkSession (Some 0) true)
                  (mkState sample_heap []) eq_refl eq_refl)).
Defined.

(** X16.  The file name opened.  The name passed to the loader has
    the length of the name typed in and no backslash; it has a forward
    slash where the typed name has a backslash and the typed character
    everywhere else, so a name without backslash is passed as it is, and
    doing the replacement again changes nothing. *)
Theorem X16_filename_normalized :
  forall filename : string,
    String.length (normalize_filename filename) = String.length filename /\
    count_delim (normalize_filename filename) backslash = 0 /\
    (forall i,
       String.get i (normalize_filename filename)
       = match String.get i filename with
         | Some ch => Some (if Ascii.eqb ch backslash then slash else ch)
         | None => None
         end) /\
    normalize_filename (normalize_filename filename)
    = normalize_filename filename /\
    (count_delim filename backslash = 0 ->
     normalize_filename filename = filename).
Proof.
  induction filename as [ | ch rest (IHlen & IHnone & IHget & IHidem & IHid)].
  - by split_conj; try intros [ | ?].
  - split_conj.
    + simpl. by rewrite IHlen.
    + simpl. rewrite IHnone.
      by destruct (Ascii.eqb ch backslash) eqn:Hch; rewrite ?Hch.
    + intros [ | i]; simpl; [done | apply IHget].
    + simpl. rewrite IHidem.
      by destruct (Ascii.eqb ch backslash) eqn:Hch; rewrite ?Hch.
    + simpl. destruct (Ascii.eqb ch backslash); [done | ].
      intros Hnone. by rewrite IHid.
Qed.

Lemma X16_witness :
  count_delim "data/courses.txt" backslash = 0 /\
  normalize_filename "data/courses.txt" = "data/courses.txt"%string.
Proof.
  split; [reflexivity | ].
  exact (proj2 (proj2 (proj2 (proj2
           (X16_filename_normalized "data/courses.txt")))) eq_refl).
Defined.
